(** * Evaluation metrics and bounding-box perturbation of [code/utils.py]

    A shallow embedding of the numeric core of [utils.py]: [precision],
    [recall], [create_or_destroy_bboxes], [add_noise_to_bboxes],
    [bbox_iou], [apk] and [mapk], followed by the properties the
    specification states about them.

    Modelling conventions.
    - Python integers are [Z].  Python floats are exact rationals [Qc]
      (canonical fractions, so that [=] is numeric equality); rounding is
      not modelled.
    - A call either returns a value or raises: [result A].
    - A bounding box is a Python list of integers, [list Z], read with
      [getitem] and written with [setitem], both of which raise
      [IndexError] out of range.
    - The random generator is a stream of raw draws threaded through the
      functions that consume it. *)

From Stdlib Require Import ZArith QArith Qcanon Lia.
From stdpp Require Import base numbers list functions.

Local Open Scope Z_scope.

(** ** The Python fragment the module relies on *)

Inductive exn : Type :=
  | ZeroDivisionError
  | IndexError
  | ValueError.

Inductive result (A : Type) : Type :=
  | Ok (a : A)
  | Raise (e : exn).

Arguments Ok {A} a.
Arguments Raise {A} e.

Global Instance result_ret : MRet result := @Ok.
Global Instance result_bind : MBind result := λ A B f m,
  match m with
  | Ok a => f a
  | Raise e => Raise e
  end.
Global Instance result_fmap : FMap result := λ A B f m,
  match m with
  | Ok a => Ok (f a)
  | Raise e => Raise e
  end.

(** The file has no [from __future__ import division] and is written for
    Python 2 ([urllib.urlopen]), where [/] on two integers is floor
    division; under Python 3 it is true division.  Both are modelled. *)
Inductive pyversion : Type := Py2 | Py3.

(** [a / b] on two integers. *)
Definition int_div (v : pyversion) (a b : Z) : result Qc :=
  if decide (b = 0) then Raise ZeroDivisionError
  else Ok (match v with
           | Py2 => Qc_of_Z (a `div` b)
           | Py3 => (Qc_of_Z a / Qc_of_Z b)%Qc
           end).

(** [a / b] when one operand is a float. *)
Definition float_div (a b : Qc) : result Qc :=
  if decide (b = 0%Qc) then Raise ZeroDivisionError else Ok (a / b)%Qc.

(** [l[i]] for a literal index [i >= 0]. *)
Definition getitem {A} (l : list A) (i : nat) : result A :=
  match l !! i with
  | Some x => Ok x
  | None => Raise IndexError
  end.

(** [l[i] = x] for a literal index [i >= 0]. *)
Definition setitem {A} (l : list A) (i : nat) (x : A) : result (list A) :=
  match l !! i with
  | Some _ => Ok (<[i:=x]> l)
  | None => Raise IndexError
  end.

(** [len(l)] *)
Definition len {A} (l : list A) : Z := Z.of_nat (length l).

(** ** [precision] and [recall] *)

Definition precision (v : pyversion) (tp fp : Z) : result Qc :=
  int_div v tp (tp + fp).

Definition recall (v : pyversion) (tp fn : Z) : result Qc :=
  int_div v tp (tp + fn).

(** ** [bbox_iou] *)

Definition bbox_iou (bbox_a bbox_b : list Z) : result Qc :=
  a1 ← getitem bbox_a 1; b1 ← getitem bbox_b 1;
  let x_a := Z.max a1 b1 in
  a0 ← getitem bbox_a 0; b0 ← getitem bbox_b 0;
  let y_a := Z.max a0 b0 in
  a3 ← getitem bbox_a 3; b3 ← getitem bbox_b 3;
  let x_b := Z.min a3 b3 in
  a2 ← getitem bbox_a 2; b2 ← getitem bbox_b 2;
  let y_b := Z.min a2 b2 in
  let inter_area := Z.max 0 (x_b - x_a + 1) * Z.max 0 (y_b - y_a + 1) in
  let bbox_a_area := (a2 - a0 + 1) * (a3 - a1 + 1) in
  let bbox_b_area := (b2 - b0 + 1) * (b3 - b1 + 1) in
  float_div (Qc_of_Z inter_area)
            (Qc_of_Z (bbox_a_area + bbox_b_area - inter_area)).

(** The quantities of the specification's description of IoU, for boxes
    [(top, left, bottom, right)]. *)
Definition box_area (top left bottom right : Z) : Z :=
  (bottom - top + 1) * (right - left + 1).

Definition inter_area_spec (tA lA bA rA tB lB bB rB : Z) : Z :=
  let x_a := Z.max lA lB in
  let y_a := Z.max tA tB in
  let x_b := Z.min rA rB in
  let y_b := Z.min bA bB in
  Z.max 0 (x_b - x_a + 1) * Z.max 0 (y_b - y_a + 1).

Definition union_area_spec (tA lA bA rA tB lB bB rB : Z) : Z :=
  box_area tA lA bA rA + box_area tB lB bB rB
  - inter_area_spec tA lA bA rA tB lB bB rB.


(** ** The random generator

    [np.random] keeps one global generator.  Its state is a stream of raw
    draws together with a cursor; every variate consumes one raw draw. *)

Record rng : Type := Rng { rng_raw : nat → nat; rng_pos : nat }.

Definition next_raw (g : rng) : nat * rng :=
  (rng_raw g (rng_pos g), Rng (rng_raw g) (S (rng_pos g))).

(** [np.random.random()]: a float in [[0, 1)] with 53 random bits. *)
Definition uniform_of_raw (r : nat) : Qc :=
  (Qc_of_Z (Z.of_nat r `mod` 2 ^ 53) / Qc_of_Z (2 ^ 53))%Qc.

Definition random (g : rng) : Qc * rng :=
  let '(r, g) := next_raw g in (uniform_of_raw r, g).

(** [np.random.randint(low, high)]: an integer in [[low, high)];
    [ValueError] when the range is empty. *)
Definition int_of_raw (low high : Z) (r : nat) : Z :=
  low + Z.of_nat r `mod` (high - low).

Definition randint (low high : Z) (g : rng) : result (Z * rng) :=
  if bool_decide (low < high) then
    let '(r, g) := next_raw g in Ok (int_of_raw low high r, g)
  else Raise ValueError.

(** [np.random.randint(low, high=high, size=2)] *)
Definition randint2 (low high : Z) (g : rng) : result ((Z * Z) * rng) :=
  '(a, g) ← randint low high g;
  '(b, g) ← randint low high g;
  Ok ((a, b), g).

(** ** [create_or_destroy_bboxes]

    [bboxes] is already a list (the [list(bboxes)] conversion is the
    identity on lists); [final_bboxes] starts as a fresh empty list and
    only grows by [append]. *)

Definition create_or_destroy_bboxes {A} (bboxes : list A) (prob : Qc)
    (g : rng) : list A * rng :=
  foldl (λ '(final_bboxes, g) bbox,
           let '(v, g) := random g in
           if bool_decide (prob < v)%Qc then (final_bboxes ++ [bbox], g)
           else (final_bboxes, g))
        ([], g) bboxes.

(** The values the next [n] calls of [np.random.random()] return. *)
Definition draws_from (g : rng) (n : nat) : list Qc :=
  (λ i, uniform_of_raw (rng_raw g (rng_pos g + i))) <$> seq 0 n.

(** The boxes whose own draw exceeds [prob], in input order. *)
Definition retained {A} (bboxes : list A) (prob : Qc) (draws : list Qc)
    : list A :=
  (filter (λ bv, (prob < bv.2)%Qc) (zip bboxes draws)).*1.

(** ** [add_noise_to_bboxes] *)

(** [a or b], where evaluating an operand may raise and [b] is evaluated
    only when [a] is false. *)
Definition por (a b : result bool) : result bool :=
  a ≫= λ x : bool, if x then Ok true else b.

(** [for i in items: body], threading the mutated state. *)
Fixpoint for_in {S I} (items : list I) (body : S → I → result S) (s : S)
    : result S :=
  match items with
  | [] => Ok s
  | i :: items => s ← body s i; for_in items body s
  end.

(** [bbox[i] + d < 0] *)
Definition below_zero (bbox : list Z) (i : nat) (d : Z) : result bool :=
  x ← getitem bbox i; Ok (x + d <? 0).

(** [limit < bbox[i] + d] *)
Definition above_limit (limit : Z) (bbox : list Z) (i : nat) (d : Z)
    : result bool :=
  x ← getitem bbox i; Ok (limit <? x + d).

(** [bbox[i] = bbox[i] + d] *)
Definition shift (bbox : list Z) (i : nat) (d : Z) : result (list Z) :=
  x ← getitem bbox i; setitem bbox i (x + d).

(** Lines 87-92 and 95-100: move the endpoints [i] and [j] together. *)
Definition move_axis (limit d : Z) (i j : nat) (bbox : list Z)
    : result (list Z) :=
  c ← por (below_zero bbox i d)
      (por (above_limit limit bbox i d)
      (por (below_zero bbox j d)
           (above_limit limit bbox j d)));
  if negb c then bbox ← shift bbox i d; shift bbox j d
  else Ok bbox.

(** Lines 105-107 and 111-113: the body of the two inner loops. *)
Definition resize_at (limit d : Z) (bbox : list Z) (i : nat)
    : result (list Z) :=
  c ← por (below_zero bbox i d) (above_limit limit bbox i d);
  if negb c then shift bbox i d else Ok bbox.

(** Lines 85-113: the body of [for bbox in bboxes], on one box object. *)
Definition perturb_bbox (shape change_position change_size : Z * Z)
    (bbox : list Z) : result (list Z) :=
  bbox ← move_axis shape.1 change_position.1 0 2 bbox;
  bbox ← move_axis shape.2 change_position.2 1 3 bbox;
  bbox ← for_in [0; 2]%nat (resize_at shape.1 change_size.1) bbox;
  for_in [1; 3]%nat (resize_at shape.2 change_size.2) bbox.

(** The boxes are mutable list objects: [bboxes] holds references into a
    store of box objects, and the same object may be listed twice. *)
Abbreviation loc := nat (only parsing).
Abbreviation heap := (loc → list Z) (only parsing).

Definition add_noise_loop (shape change_position change_size : Z * Z)
    (bboxes : list loc) (h : heap) : result heap :=
  for_in bboxes
    (λ (h : heap) (r : loc),
       bbox ← perturb_bbox shape change_position change_size (h r);
       Ok (<[r := bbox]> h))
    h.

(** [bboxes] is a list, the only case in which line 66 does not fail
    ([np.array] is not a type).  The factors are integers. *)
Definition add_noise_to_bboxes (bboxes : list loc) (shape : Z * Z)
    (noise_size : bool) (noise_size_factor : Z)
    (noise_position : bool) (noise_position_factor : Z)
    (h : heap) (g : rng) : result (list loc * heap * rng) :=
  '(change_position, g) ←
    (if noise_position
     then randint2 (- noise_size_factor) noise_size_factor g
     else Ok ((0, 0), g));
  '(change_size, g) ←
    (if noise_size
     then randint2 (- noise_position_factor) noise_position_factor g
     else Ok ((0, 0), g));
  h ← add_noise_loop shape change_position change_size bboxes h;
  Ok (bboxes, h, g).

(** The per-box transform in the specification's words: the position
    offset moves an axis' two endpoints together or not at all, the size
    offset adjusts each endpoint on its own. *)
Definition within (limit x : Z) : bool := (0 <=? x) && (x <=? limit).

Definition move_pair (limit d a b : Z) : Z * Z :=
  if within limit (a + d) && within limit (b + d) then (a + d, b + d)
  else (a, b).

Definition adjust (limit d x : Z) : Z :=
  if within limit (x + d) then x + d else x.

Definition perturb_spec (shape cp cs : Z * Z) (top left bottom right : Z)
    : Z * Z * Z * Z :=
  let '(top1, bottom1) := move_pair shape.1 cp.1 top bottom in
  let '(left1, right1) := move_pair shape.2 cp.2 left right in
  (adjust shape.1 cs.1 top1, adjust shape.2 cs.2 left1,
   adjust shape.1 cs.1 bottom1, adjust shape.2 cs.2 right1).

(** The axis bound of coordinate [i] of a box. *)
Definition axis_limit (shape : Z * Z) (i : nat) : Z :=
  if Nat.even i then shape.1 else shape.2.

(** What one coordinate can become under a limit: it keeps its value or
    lands inside [[0, limit]]. *)
Definition kept_or_inside (limit x x' : Z) : Prop :=
  x' = x ∨ 0 ≤ x' ≤ limit.

(** Every listed box object has its four coordinates. *)
Definition well_formed (bboxes : list loc) (h : heap) : Prop :=
  ∀ r, r ∈ bboxes → (4 ≤ length (h r))%nat.

(** Every coordinate that was inside its axis bound in [h] is inside it
    in [h']. *)
Definition stays_inside (shape : Z * Z) (h h' : heap) : Prop :=
  ∀ r i x, (i < 4)%nat → h r !! i = Some x →
    0 ≤ x ≤ axis_limit shape i →
    ∃ x', h' r !! i = Some x' ∧ 0 ≤ x' ≤ axis_limit shape i.

(** Every coordinate of [h'] is the one of [h] or zero. *)
Definition kept_or_zero (h h' : heap) : Prop :=
  ∀ r i x, (i < 4)%nat → h r !! i = Some x →
    h' r !! i = Some x ∨ h' r !! i = Some 0.

(** The offset a call uses for one kind of noise: two components read off
    the generator when the flag is set, [(0, 0)] and an untouched
    generator otherwise. *)
Definition offset_of_call (flag : bool) (factor : Z) (g : rng)
    : (Z * Z) * rng :=
  if flag then
    ((int_of_raw (- factor) factor (rng_raw g (rng_pos g)),
      int_of_raw (- factor) factor (rng_raw g (S (rng_pos g)))),
     Rng (rng_raw g) (S (S (rng_pos g))))
  else ((0, 0), g).

(** Sample inputs: every address holds the box [(10, 10, 20, 20)], and a
    generator with raw draws 3, 10, 17, 24, ... *)
Definition sample_heap : heap := λ _, [10; 10; 20; 20].
Definition sample_rng : rng := Rng (λ i, (7 * i + 3)%nat) 0.

(** ** [apk] and [mapk] *)

(** [l[:k]] *)
Definition slice_to {A} (l : list A) (k : Z) : list A :=
  let k := if bool_decide (k < 0) then Z.max 0 (k + len l) else k in
  take (Z.to_nat k) l.

(** [enumerate(l)] *)
Definition enumerate {A} (l : list A) : list (nat * A) :=
  imap (λ i x, (i, x)) l.

(** A numpy float result: a number or [nan]. *)
Inductive npfloat : Type :=
  | Finite (q : Qc)
  | NaN.

Definition Qc_sum (xs : list Qc) : Qc := foldr Qcplus 0%Qc xs.

(** [np.mean(xs)] on a list of floats; [nan] (with a warning) when the
    list is empty. *)
Definition np_mean (xs : list Qc) : npfloat :=
  match xs with
  | [] => NaN
  | _ => Finite (Qc_sum xs / Qc_of_Z (len xs))%Qc
  end.

Section ranking.
Context {A : Type} `{EqDecision A}.

(** The body of the scoring loop, on the pair [(score, num_hits)].
    The divisor [i + 1.0] is at least 1. *)
Definition apk_body (actual predicted : list A) (st : Qc * Qc)
    (ip : nat * A) : Qc * Qc :=
  let '(score, num_hits) := st in
  let '(i, p) := ip in
  if bool_decide (p ∈ actual)
     && negb (bool_decide (p ∈ slice_to predicted (Z.of_nat i)))
  then
    let num_hits := (num_hits + 1)%Qc in
    ((score + num_hits / (Qc_of_Z (Z.of_nat i) + 1))%Qc, num_hits)
  else (score, num_hits).

Definition apk (actual predicted : list A) (k : Z) : result Qc :=
  let predicted :=
    if bool_decide (k < len predicted) then slice_to predicted k
    else predicted in
  let '(score, num_hits) :=
    foldl (apk_body actual predicted) (0%Qc, 0%Qc) (enumerate predicted) in
  match actual with
  | [] => Ok 0%Qc
  | _ => float_div score (Qc_of_Z (Z.min (len actual) k))
  end.

Definition mapk (actual predicted : list (list A)) (k : Z)
    : result npfloat :=
  scores ← mapM (λ '(a, p), apk a p k) (zip actual predicted);
  Ok (np_mean scores).

(** The reference algorithm of the specification: [seen] is the prefix
    [predicted[0:i]] already walked, [i] the 0-based index of the head
    of [rest]. *)
Fixpoint apk_walk (actual seen rest : list A) (i : nat)
    (numHits score : Qc) : Qc :=
  match rest with
  | [] => score
  | p :: rest =>
      if bool_decide (p ∈ actual ∧ p ∉ seen) then
        let numHits := (numHits + 1)%Qc in
        apk_walk actual (seen ++ [p]) rest (S i) numHits
                 (score + numHits / Qc_of_Z (Z.of_nat (i + 1)))%Qc
      else apk_walk actual (seen ++ [p]) rest (S i) numHits score
  end.

Definition apk_reference (actual predicted : list A) (k : nat)
    : result Qc :=
  let truncated :=
    if bool_decide (k < length predicted)%nat then take k predicted
    else predicted in
  match actual with
  | [] => Ok 0%Qc
  | _ =>
      float_div (apk_walk actual [] truncated 0 0%Qc 0%Qc)
                (Qc_of_Z (Z.of_nat (length actual `min` k)))
  end.

(** The items the walk credits: the members of [actual] at their
    first occurrence. *)
Fixpoint credited (actual seen rest : list A) : list A :=
  match rest with
  | [] => []
  | p :: rest =>
      if bool_decide (p ∈ actual ∧ p ∉ seen)
      then p :: credited actual (seen ++ [p]) rest
      else credited actual (seen ++ [p]) rest
  end.

(** The arithmetic mean of the per-pair scores, pairing by position up
    to the shorter list. *)
Definition mapk_reference (actualLists predictedLists : list (list A))
    (k : Z) : result npfloat :=
  let n := (length actualLists `min` length predictedLists)%nat in
  scores ← mapM (λ i, apk (actualLists !!! i) (predictedLists !!! i) k)
                (seq 0 n);
  Ok (Finite (Qc_sum scores / Qc_of_Z (Z.of_nat n))%Qc).
End ranking.

(** * Properties *)

Lemma Qc_of_Z_eq_0 (n : Z) : Qc_of_Z n = 0%Qc ↔ n = 0.
Proof. rewrite <-Z2Qc_inj_0. apply Z2Qc_inj_iff. Qed.

Lemma Qc_of_Z_pos (n : Z) : 0 < n → (0 < Qc_of_Z n)%Qc.
Proof. intros Hn. rewrite <-Z2Qc_inj_0. by rewrite <-Z2Qc_inj_lt. Qed.

Lemma Qc_of_Z_nonneg (n : Z) : 0 ≤ n → (0 ≤ Qc_of_Z n)%Qc.
Proof. intros Hn. rewrite <-Z2Qc_inj_0. by rewrite <-Z2Qc_inj_le. Qed.

Lemma Qc_div_unit (a b : Qc) :
  (0 ≤ a ≤ b)%Qc → (0 < b)%Qc → (0 ≤ a / b ≤ 1)%Qc.
Proof.
  intros [Ha Hab] Hb.
  assert (b ≠ 0%Qc) as Hne.
  { intros ->. by apply Qclt_not_eq in Hb. }
  split.
  - apply Qcmult_nonneg_nonneg; [done|].
    by apply Qclt_le_weak, Qcinv_pos.
  - apply (Qcmult_le_mono_pos_r _ _ b); [done|].
    by rewrite Qcmult_1_l, (Qcmult_comm _ b), Qcmult_div_r.
Qed.

Lemma int_div_raises v a b :
  int_div v a b = Raise ZeroDivisionError ↔ b = 0.
Proof.
  unfold int_div. destruct (decide (b = 0)); split; intros; try done.
Qed.

Lemma bbox_iou_unfold tA lA bA rA tB lB bB rB :
  bbox_iou [tA; lA; bA; rA] [tB; lB; bB; rB] =
  float_div (Qc_of_Z (inter_area_spec tA lA bA rA tB lB bB rB))
            (Qc_of_Z (union_area_spec tA lA bA rA tB lB bB rB)).
Proof. reflexivity. Qed.

(** C1: for boxes [(top, left, bottom, right)], [bbox_iou] returns
    intersection area over union area, with inclusive-pixel box areas and
    the intersection clamped at zero, whenever the denominator is not
    zero. *)
Theorem bbox_iou_formula (tA lA bA rA tB lB bB rB : Z) :
  let interArea := inter_area_spec tA lA bA rA tB lB bB rB in
  let areaA := box_area tA lA bA rA in
  let areaB := box_area tB lB bB rB in
  areaA + areaB - interArea ≠ 0 →
  bbox_iou [tA; lA; bA; rA] [tB; lB; bB; rB] =
  Ok (Qc_of_Z interArea / Qc_of_Z (areaA + areaB - interArea))%Qc.
Proof.
  intros interArea areaA areaB Hden. rewrite bbox_iou_unfold.
  unfold float_div, union_area_spec. fold interArea areaA areaB.
  destruct (decide _) as [Hz|]; [|done].
  by apply Qc_of_Z_eq_0 in Hz.
Qed.

Lemma bbox_iou_formula_witness :
  box_area 0 0 9 9 + box_area 5 5 14 14
    - inter_area_spec 0 0 9 9 5 5 14 14 ≠ 0 ∧
  bbox_iou [0; 0; 9; 9] [5; 5; 14; 14] = Ok (Qc_of_Z 25 / Qc_of_Z 175)%Qc.
Proof.
  split; [by vm_compute|].
  apply (bbox_iou_formula 0 0 9 9 5 5 14 14). by vm_compute.
Defined.

(** C2: [precision], [recall] and [bbox_iou] raise [ZeroDivisionError]
    exactly when their denominator is zero; the error reaches the caller
    instead of a value; [precision(0,0)] raises and [precision(5,0)] is
    [1.0]. *)
Theorem division_by_zero_surfaced :
  (∀ v tp fp, precision v tp fp = Raise ZeroDivisionError ↔ tp + fp = 0) ∧
  (∀ v tp fn, recall v tp fn = Raise ZeroDivisionError ↔ tp + fn = 0) ∧
  (∀ tA lA bA rA tB lB bB rB,
     bbox_iou [tA; lA; bA; rA] [tB; lB; bB; rB] = Raise ZeroDivisionError ↔
     box_area tA lA bA rA + box_area tB lB bB rB
       - inter_area_spec tA lA bA rA tB lB bB rB = 0) ∧
  (∀ v, precision v 0 0 = Raise ZeroDivisionError) ∧
  (∀ v, precision v 5 0 = Ok 1%Qc).
Proof.
  split_and!.
  - intros v tp fp. apply int_div_raises.
  - intros v tp fn. apply int_div_raises.
  - intros tA lA bA rA tB lB bB rB. rewrite bbox_iou_unfold.
    unfold float_div, union_area_spec. rewrite <-Qc_of_Z_eq_0.
    by destruct (decide _).
  - intros v. by apply int_div_raises.
  - intros []; unfold precision, int_div; simpl; f_equal; by apply Qc_is_canon.
Qed.

Lemma bind_Ok {A B} (a : A) (f : A → result B) : (Ok a ≫= f) = f a.
Proof. reflexivity. Qed.

Lemma for_in_cons {S I} (i : I) items (body : S → I → result S) s :
  for_in (i :: items) body s = body s i ≫= for_in items body.
Proof. reflexivity. Qed.

(** ** The examples of the specification *)

Ltac qc_eval := vm_compute; f_equal; apply Qc_is_canon; reflexivity.

Example apk_perfect_match : apk [1; 2] [1; 2] 10 = Ok 1%Qc.
Proof. qc_eval. Qed.

Example apk_hit_at_rank_two : apk [1] [2; 1] 10 = Ok (1 / 2)%Qc.
Proof. qc_eval. Qed.

Example apk_duplicate_credit : apk [1] [1; 1] 10 = Ok 1%Qc.
Proof. qc_eval. Qed.

Example apk_empty_actual : apk [] [1; 2] 10 = Ok 0%Qc.
Proof. qc_eval. Qed.

Example apk_zero_k : apk [1] [1; 2] 0 = Raise ZeroDivisionError.
Proof. reflexivity. Qed.

Example bbox_iou_self : bbox_iou [0; 0; 9; 9] [0; 0; 9; 9] = Ok 1%Qc.
Proof. qc_eval. Qed.

Example bbox_iou_disjoint : bbox_iou [0; 0; 9; 9] [20; 20; 29; 29] = Ok 0%Qc.
Proof. qc_eval. Qed.

Example bbox_iou_degenerate :
  bbox_iou [0; 0; -1; 9] [5; 5; 4; 14] = Raise ZeroDivisionError.
Proof. reflexivity. Qed.

Example precision_floor_py2 : precision Py2 1 1 = Ok 0%Qc.
Proof. qc_eval. Qed.

Example precision_true_py3 : precision Py3 1 1 = Ok (1 / 2)%Qc.
Proof. qc_eval. Qed.

Example perturb_inside :
  perturb_bbox (100, 100) (2, -1) (-3, 4) [3; 1; 7; 9] = Ok [2; 4; 6; 12].
Proof. reflexivity. Qed.

Example perturb_short_box :
  perturb_bbox (100, 100) (2, -1) (-3, 4) [3; 1; 7] = Raise IndexError.
Proof. reflexivity. Qed.

(** ** The per-box transform of [add_noise_to_bboxes] *)

Lemma within_spec limit x : within limit x = true ↔ 0 ≤ x ≤ limit.
Proof. unfold within. rewrite andb_true_iff, !Z.leb_le. done. Qed.

Lemma move_axis_vertical limit d t l b r rest :
  move_axis limit d 0 2 (t :: l :: b :: r :: rest) =
  Ok (let '(t', b') := move_pair limit d t b in t' :: l :: b' :: r :: rest).
Proof.
  unfold move_axis, move_pair, within, por, below_zero, above_limit, shift.
  simpl. rewrite !Z.ltb_antisym.
  destruct (0 <=? t + d), (t + d <=? limit), (0 <=? b + d), (b + d <=? limit);
    reflexivity.
Qed.

Lemma move_axis_horizontal limit d t l b r rest :
  move_axis limit d 1 3 (t :: l :: b :: r :: rest) =
  Ok (let '(l', r') := move_pair limit d l r in t :: l' :: b :: r' :: rest).
Proof.
  unfold move_axis, move_pair, within, por, below_zero, above_limit, shift.
  simpl. rewrite !Z.ltb_antisym.
  destruct (0 <=? l + d), (l + d <=? limit), (0 <=? r + d), (r + d <=? limit);
    reflexivity.
Qed.

Lemma resize_vertical limit d t l b r rest :
  for_in [0; 2]%nat (resize_at limit d) (t :: l :: b :: r :: rest) =
  Ok (adjust limit d t :: l :: adjust limit d b :: r :: rest).
Proof.
  unfold resize_at, adjust, within, por, below_zero, above_limit, shift.
  simpl. rewrite !Z.ltb_antisym.
  destruct (0 <=? t + d), (t + d <=? limit); simpl; rewrite ?Z.ltb_antisym;
    destruct (0 <=? b + d), (b + d <=? limit); reflexivity.
Qed.

Lemma resize_horizontal limit d t l b r rest :
  for_in [1; 3]%nat (resize_at limit d) (t :: l :: b :: r :: rest) =
  Ok (t :: adjust limit d l :: b :: adjust limit d r :: rest).
Proof.
  unfold resize_at, adjust, within, por, below_zero, above_limit, shift.
  simpl. rewrite !Z.ltb_antisym.
  destruct (0 <=? l + d), (l + d <=? limit); simpl; rewrite ?Z.ltb_antisym;
    destruct (0 <=? r + d), (r + d <=? limit); reflexivity.
Qed.

Lemma perturb_bbox_closed shape cp cs t l b r rest :
  perturb_bbox shape cp cs (t :: l :: b :: r :: rest) =
  Ok (let '(t', l', b', r') := perturb_spec shape cp cs t l b r in
      t' :: l' :: b' :: r' :: rest).
Proof.
  unfold perturb_bbox, perturb_spec.
  rewrite move_axis_vertical, bind_Ok.
  destruct (move_pair shape.1 cp.1 t b) as [t1 b1].
  rewrite move_axis_horizontal, bind_Ok.
  destruct (move_pair shape.2 cp.2 l r) as [l1 r1].
  by rewrite resize_vertical, bind_Ok, resize_horizontal.
Qed.

(** C6: on a box [(top, left, bottom, right)] the loop body moves top and
    bottom together by the vertical position offset only if both results
    stay in [[0, shape[0]]], left and right together by the horizontal one
    only if both stay in [[0, shape[1]]], and then adjusts each of the four
    coordinates by the size offset of its axis on its own, only if its own
    result stays within its axis bound. *)
Theorem perturb_bbox_axis_policy (shape cp cs : Z * Z)
    (top left bottom right : Z) (rest : list Z) :
  perturb_bbox shape cp cs (top :: left :: bottom :: right :: rest) =
  let '(top1, bottom1) :=
    if within shape.1 (top + cp.1) && within shape.1 (bottom + cp.1)
    then (top + cp.1, bottom + cp.1) else (top, bottom) in
  let '(left1, right1) :=
    if within shape.2 (left + cp.2) && within shape.2 (right + cp.2)
    then (left + cp.2, right + cp.2) else (left, right) in
  Ok ((if within shape.1 (top1 + cs.1) then top1 + cs.1 else top1)
      :: (if within shape.2 (left1 + cs.2) then left1 + cs.2 else left1)
      :: (if within shape.1 (bottom1 + cs.1) then bottom1 + cs.1 else bottom1)
      :: (if within shape.2 (right1 + cs.2) then right1 + cs.2 else right1)
      :: rest).
Proof.
  rewrite perturb_bbox_closed. unfold perturb_spec, move_pair, adjust.
  destruct (within shape.1 (top + cp.1) && within shape.1 (bottom + cp.1));
    destruct (within shape.2 (left + cp.2) && within shape.2 (right + cp.2));
    reflexivity.
Qed.

(** ** Coordinates across the loop *)

Lemma kept_or_inside_refl limit x : kept_or_inside limit x x.
Proof. by left. Qed.

Lemma kept_or_inside_trans limit x y z :
  kept_or_inside limit x y → kept_or_inside limit y z →
  kept_or_inside limit x z.
Proof. unfold kept_or_inside. intros [->|?] [->|?]; auto. Qed.

Lemma adjust_kept_or_inside limit d x :
  kept_or_inside limit x (adjust limit d x).
Proof.
  unfold adjust. destruct (within limit (x + d)) eqn:Hw; [|by left].
  right. by apply within_spec.
Qed.

Lemma move_pair_kept_or_inside limit d a b :
  kept_or_inside limit a (move_pair limit d a b).1 ∧
  kept_or_inside limit b (move_pair limit d a b).2.
Proof.
  unfold move_pair.
  destruct (within limit (a + d)) eqn:Ha, (within limit (b + d)) eqn:Hb;
    simpl; try (split; by left).
  apply within_spec in Ha, Hb. split; by right.
Qed.

Lemma perturb_bbox_coords shape cp cs bbox :
  (4 ≤ length bbox)%nat →
  ∃ bbox', perturb_bbox shape cp cs bbox = Ok bbox' ∧
    length bbox' = length bbox ∧
    ∀ i x, (i < 4)%nat → bbox !! i = Some x →
      ∃ x', bbox' !! i = Some x' ∧ kept_or_inside (axis_limit shape i) x x'.
Proof.
  destruct bbox as [|t [|l [|b [|r rest]]]]; simpl; try lia. intros _.
  rewrite perturb_bbox_closed. unfold perturb_spec.
  pose proof (move_pair_kept_or_inside shape.1 cp.1 t b) as [Ht Hb].
  pose proof (move_pair_kept_or_inside shape.2 cp.2 l r) as [Hl Hr].
  destruct (move_pair shape.1 cp.1 t b) as [t1 b1].
  destruct (move_pair shape.2 cp.2 l r) as [l1 r1]. simpl in *.
  eexists. split; [done|]. split; [done|].
  intros i x Hi Hx.
  destruct i as [|[|[|[|i]]]]; [| | | |lia]; simpl in *; simplify_eq;
    (eexists; split; [done|]);
    (eapply kept_or_inside_trans; [eassumption|apply adjust_kept_or_inside]).
Qed.

Lemma add_noise_loop_coords shape cp cs bboxes (h : heap) :
  (∀ r, r ∈ bboxes → (4 ≤ length (h r))%nat) →
  ∃ h' : heap, add_noise_loop shape cp cs bboxes h = Ok h' ∧
    (∀ r, length (h' r) = length (h r)) ∧
    ∀ r i x, (i < 4)%nat → h r !! i = Some x →
      ∃ x', h' r !! i = Some x' ∧ kept_or_inside (axis_limit shape i) x x'.
Proof.
  unfold add_noise_loop. revert h.
  induction bboxes as [|r0 bboxes IH]; intros h Hwf; [simpl|rewrite for_in_cons].
  - exists h. split_and!; [done..|]. intros r i x _ Hx. exists x.
    split; [done|apply kept_or_inside_refl].
  - destruct (perturb_bbox_coords shape cp cs (h r0)) as (b' & -> & Hlen & Hb').
    { apply Hwf. by left. }
    rewrite !bind_Ok.
    destruct (IH (<[r0:=b']> h)) as (h' & -> & Hlen' & Hh').
    { intros r Hr. destruct (decide (r0 = r)) as [->|Hne].
      - rewrite fn_lookup_insert, Hlen. apply Hwf. by left.
      - rewrite fn_lookup_insert_ne by done. apply Hwf. by right. }
    exists h'. split; [done|]. split.
    + intros r. rewrite Hlen'. destruct (decide (r0 = r)) as [->|Hne].
      * by rewrite fn_lookup_insert.
      * by rewrite fn_lookup_insert_ne.
    + intros r i x Hi Hx. destruct (decide (r0 = r)) as [->|Hne].
      * destruct (Hb' i x Hi Hx) as (x1 & Hx1 & Hk1).
        destruct (Hh' r i x1 Hi) as (x2 & Hx2 & Hk2).
        { by rewrite fn_lookup_insert. }
        exists x2. split; [done|]. by eapply kept_or_inside_trans.
      * apply Hh'; [done|]. by rewrite fn_lookup_insert_ne.
Qed.

(** The offsets of a call are fixed before the loop starts. *)
Lemma add_noise_to_bboxes_Ok bboxes shape ns nsf np npf (h : heap) g bs h' g' :
  add_noise_to_bboxes bboxes shape ns nsf np npf h g = Ok (bs, h', g') →
  bs = bboxes ∧ ∃ cp cs, add_noise_loop shape cp cs bboxes h = Ok h'.
Proof.
  unfold add_noise_to_bboxes. intros Hcall.
  destruct (if np then _ else _) as [[cp g1]|]; [|done].
  rewrite bind_Ok in Hcall.
  destruct (if ns then _ else _) as [[cs g2]|]; [|done].
  rewrite bind_Ok in Hcall.
  destruct (add_noise_loop shape cp cs bboxes h) as [h1|] eqn:Hloop; [|done].
  rewrite bind_Ok in Hcall. simplify_eq. eauto.
Qed.

Lemma add_noise_loop_NoDup shape cp cs bboxes (h : heap) :
  NoDup bboxes → well_formed bboxes h →
  ∃ h' : heap, add_noise_loop shape cp cs bboxes h = Ok h' ∧
    (∀ r, r ∈ bboxes → perturb_bbox shape cp cs (h r) = Ok (h' r)) ∧
    (∀ r, r ∉ bboxes → h' r = h r).
Proof.
  unfold add_noise_loop, well_formed. revert h.
  induction bboxes as [|r0 bboxes IH]; intros h Hnd Hwf;
    [simpl|rewrite for_in_cons].
  - exists h. split_and!; [done| |done]. intros r Hr. by apply elem_of_nil in Hr.
  - pose proof (NoDup_cons_1_1 _ _ Hnd) as Hr0.
    apply NoDup_cons_1_2 in Hnd.
    destruct (perturb_bbox_coords shape cp cs (h r0)) as (b' & Hb' & Hlen & _).
    { apply Hwf. by left. }
    rewrite Hb', !bind_Ok.
    destruct (IH (<[r0:=b']> h) Hnd) as (h' & -> & Hin & Hout).
    { intros r Hr. rewrite fn_lookup_insert_ne by (by intros ->).
      apply Hwf. by right. }
    exists h'. split; [done|]. split.
    + intros r [->|Hr]%elem_of_cons.
      * by rewrite Hout, fn_lookup_insert.
      * rewrite <-Hin by done. by rewrite fn_lookup_insert_ne by (by intros ->).
    + intros r [Hne Hr]%not_elem_of_cons.
      by rewrite Hout, fn_lookup_insert_ne.
Qed.

Lemma int_of_raw_range low high r :
  low < high → low ≤ int_of_raw low high r < high.
Proof.
  intros Hlt. unfold int_of_raw.
  pose proof (Z.mod_pos_bound (Z.of_nat r) (high - low)). lia.
Qed.


Lemma randint_Ok low high g :
  low < high →
  randint low high g =
  Ok (int_of_raw low high (rng_raw g (rng_pos g)),
      Rng (rng_raw g) (S (rng_pos g))).
Proof. intros Hlt. unfold randint. by rewrite bool_decide_eq_true_2. Qed.

Lemma randint2_offset factor g :
  0 < factor →
  randint2 (- factor) factor g = Ok (offset_of_call true factor g).
Proof.
  intros Hpos. unfold randint2.
  rewrite randint_Ok, bind_Ok by lia. cbv beta iota.
  by rewrite randint_Ok, bind_Ok by lia.
Qed.

Lemma offset_of_call_Ok (flag : bool) factor g :
  (flag = true → 0 < factor) →
  (if flag then randint2 (- factor) factor g else Ok ((0, 0), g)) =
  Ok (offset_of_call flag factor g).
Proof.
  destruct flag; [|done]. intros Hpos. by apply randint2_offset, Hpos.
Qed.

Lemma offset_of_call_range factor g :
  0 < factor →
  - factor ≤ (offset_of_call true factor g).1.1 < factor ∧
  - factor ≤ (offset_of_call true factor g).1.2 < factor.
Proof. intros Hpos. simpl. split; apply int_of_raw_range; lia. Qed.

Lemma offset_of_call_pos (flag : bool) factor g :
  rng_pos (offset_of_call flag factor g).2 =
  (rng_pos g + if flag then 2 else 0)%nat.
Proof. destruct flag; simpl; lia. Qed.

(** C7, as the code has it: a position offset is drawn only when
    [noise_position] is set and a size offset only when [noise_size] is
    set (otherwise that offset is [(0, 0)] and the generator is left
    alone); each is drawn once, before the loop, and the loop applies the
    same two offsets to every box.  The position components lie in
    [[-noise_size_factor, noise_size_factor)] and the size components in
    [[-noise_position_factor, noise_position_factor)]: the two factors are
    swapped.  The factor of an enabled noise has to be positive. *)
Theorem add_noise_shared_offsets (bboxes : list loc) (shape : Z * Z)
    (noise_size : bool) (noise_size_factor : Z)
    (noise_position : bool) (noise_position_factor : Z)
    (h : heap) (g : rng) :
  (noise_position = true → 0 < noise_size_factor) →
  (noise_size = true → 0 < noise_position_factor) →
  let '(cp, g1) := offset_of_call noise_position noise_size_factor g in
  let '(cs, g2) := offset_of_call noise_size noise_position_factor g1 in
  add_noise_to_bboxes bboxes shape noise_size noise_size_factor
      noise_position noise_position_factor h g =
    (add_noise_loop shape cp cs bboxes h ≫= λ h', Ok (bboxes, h', g2)) ∧
  (noise_position = true →
     - noise_size_factor ≤ cp.1 < noise_size_factor ∧
     - noise_size_factor ≤ cp.2 < noise_size_factor) ∧
  (noise_size = true →
     - noise_position_factor ≤ cs.1 < noise_position_factor ∧
     - noise_position_factor ≤ cs.2 < noise_position_factor) ∧
  rng_pos g2 = (rng_pos g + (if noise_position then 2 else 0)
                          + (if noise_size then 2 else 0))%nat ∧
  (NoDup bboxes → well_formed bboxes h →
   ∃ h' : heap, add_noise_loop shape cp cs bboxes h = Ok h' ∧
     (∀ r, r ∈ bboxes → perturb_bbox shape cp cs (h r) = Ok (h' r)) ∧
     (∀ r, r ∉ bboxes → h' r = h r)).
Proof.
  intros Hnsf Hnpf.
  destruct (offset_of_call noise_position noise_size_factor g)
    as [cp g1] eqn:Hcp.
  destruct (offset_of_call noise_size noise_position_factor g1)
    as [cs g2] eqn:Hcs.
  split_and!.
  - unfold add_noise_to_bboxes.
    rewrite (offset_of_call_Ok _ _ _ Hnsf), Hcp, bind_Ok.
    by rewrite (offset_of_call_Ok _ _ _ Hnpf), Hcs, bind_Ok.
  - intros ->. specialize (Hnsf eq_refl).
    pose proof (offset_of_call_range _ g Hnsf) as Hr. by rewrite Hcp in Hr.
  - intros ->. specialize (Hnpf eq_refl).
    pose proof (offset_of_call_range _ g1 Hnpf) as Hr. by rewrite Hcs in Hr.
  - pose proof (offset_of_call_pos noise_position noise_size_factor g) as H1.
    pose proof (offset_of_call_pos noise_size noise_position_factor g1) as H2.
    rewrite Hcp in H1. rewrite Hcs in H2. simpl in *. lia.
  - apply add_noise_loop_NoDup.
Qed.

Lemma add_noise_shared_offsets_witness :
  add_noise_to_bboxes [0; 1]%nat (100, 100) true 5 true 5
      sample_heap sample_rng =
    (add_noise_loop (100, 100) (-2, -5) (2, -1) [0; 1]%nat sample_heap
       ≫= λ h', Ok ([0; 1]%nat, h', Rng (rng_raw sample_rng) 4)) ∧
  (true = true → -5 ≤ -2 < 5 ∧ -5 ≤ -5 < 5).
Proof.
  pose proof (add_noise_shared_offsets [0; 1]%nat (100, 100) true 5 true 5
                sample_heap sample_rng) as H.
  simpl in H. destruct H as (Hcall & Hcp & _); [lia..|].
  split; [exact Hcall|exact Hcp].
Defined.

(** C7, counterexample to the claim as stated: with [noise_position]
    off the call draws no position offset.  Only the two components of
    the size offset are read off the generator, and the box moves by the
    size offset [(-2, -5)] alone. *)
Lemma position_offset_not_drawn_when_disabled :
  ∃ (h' : heap) g',
    add_noise_to_bboxes [0%nat] (100, 100) true 5 false 5
      sample_heap sample_rng = Ok ([0%nat], h', g') ∧
    rng_pos g' = (rng_pos sample_rng + 2)%nat ∧
    rng_pos g' ≠ (rng_pos sample_rng + 4)%nat ∧
    h' 0%nat = [8; 5; 18; 15].
Proof. eexists _, _. split; [reflexivity|]. by vm_compute. Qed.

(** C10: a coordinate that lies within its axis bound before the call
    lies within it after the call, whatever offsets are drawn; on boxes
    that have their four coordinates the loop always completes. *)
Theorem add_noise_preserves_in_bounds (bboxes : list loc) (shape : Z * Z)
    (h : heap) :
  well_formed bboxes h →
  (∀ cp cs, ∃ h' : heap,
     add_noise_loop shape cp cs bboxes h = Ok h' ∧ stays_inside shape h h') ∧
  (∀ noise_size noise_size_factor noise_position noise_position_factor
     g bs (h' : heap) g',
     add_noise_to_bboxes bboxes shape noise_size noise_size_factor
       noise_position noise_position_factor h g = Ok (bs, h', g') →
     stays_inside shape h h').
Proof.
  intros Hwf.
  assert (∀ cp cs, ∃ h' : heap,
    add_noise_loop shape cp cs bboxes h = Ok h' ∧ stays_inside shape h h')
    as Hloop.
  { intros cp cs.
    destruct (add_noise_loop_coords shape cp cs bboxes h Hwf)
      as (h' & Hh' & _ & Hco).
    exists h'. split; [done|]. intros r i x Hi Hx Hin.
    destruct (Hco r i x Hi Hx) as (x' & Hx' & [->|Hk]); eauto. }
  split; [done|].
  intros ns nsf np npf g bs h' g' Hcall.
  apply add_noise_to_bboxes_Ok in Hcall as (_ & cp & cs & Hh').
  destruct (Hloop cp cs) as (h'' & Hh'' & Hin).
  rewrite Hh' in Hh''. by injection Hh'' as <-.
Qed.

Lemma add_noise_preserves_in_bounds_witness :
  well_formed [0; 1; 0]%nat sample_heap ∧
  ∃ h' : heap,
    add_noise_loop (100, 100) (-2, -5) (2, -1) [0; 1; 0]%nat sample_heap
      = Ok h' ∧
    stays_inside (100, 100) sample_heap h'.
Proof.
  assert (well_formed [0; 1; 0]%nat sample_heap) as Hwf.
  { intros r _. simpl. lia. }
  split; [exact Hwf|].
  apply (add_noise_preserves_in_bounds [0; 1; 0]%nat (100, 100)
           sample_heap Hwf).
Defined.

(** C8, as the code has it: with [shape == (0, 0)] a candidate move is
    accepted exactly when it lands on 0, so after the call every
    coordinate is numerically unchanged or equal to 0, whatever offsets
    are drawn. *)
Theorem zero_extent_kept_or_zero (bboxes : list loc) (h : heap) :
  well_formed bboxes h →
  (∀ cp cs, ∃ h' : heap,
     add_noise_loop (0, 0) cp cs bboxes h = Ok h' ∧ kept_or_zero h h') ∧
  (∀ noise_size noise_size_factor noise_position noise_position_factor
     g bs (h' : heap) g',
     add_noise_to_bboxes bboxes (0, 0) noise_size noise_size_factor
       noise_position noise_position_factor h g = Ok (bs, h', g') →
     kept_or_zero h h').
Proof.
  intros Hwf.
  assert (∀ cp cs, ∃ h' : heap,
    add_noise_loop (0, 0) cp cs bboxes h = Ok h' ∧ kept_or_zero h h')
    as Hloop.
  { intros cp cs.
    destruct (add_noise_loop_coords (0, 0) cp cs bboxes h Hwf)
      as (h' & Hh' & _ & Hco).
    exists h'. split; [done|]. intros r i x Hi Hx.
    destruct (Hco r i x Hi Hx) as (x' & Hx' & [->|Hk]); [by left|].
    right. rewrite Hx'. f_equal.
    unfold axis_limit in Hk. destruct (Nat.even i); simpl in Hk; lia. }
  split; [done|].
  intros ns nsf np npf g bs h' g' Hcall.
  apply add_noise_to_bboxes_Ok in Hcall as (_ & cp & cs & Hh').
  destruct (Hloop cp cs) as (h'' & Hh'' & Hin).
  rewrite Hh' in Hh''. by injection Hh'' as <-.
Qed.

Lemma zero_extent_kept_or_zero_witness :
  well_formed [0; 1; 0]%nat sample_heap ∧
  ∃ h' : heap,
    add_noise_loop (0, 0) (-10, 3) (-10, -10) [0; 1; 0]%nat sample_heap
      = Ok h' ∧
    kept_or_zero sample_heap h'.
Proof.
  assert (well_formed [0; 1; 0]%nat sample_heap) as Hwf.
  { intros r _. simpl. lia. }
  split; [exact Hwf|].
  apply (zero_extent_kept_or_zero [0; 1; 0]%nat sample_heap Hwf).
Defined.

(** C8, counterexample to the claim as stated: with [shape == (0, 0)],
    the box [(3, 3, 3, 3)] and every raw draw equal to 2, both offsets are
    [(-3, -3)]; the position move lands both endpoints of each axis on 0,
    which is within [[0, 0]], so it is accepted and the box becomes
    [(0, 0, 0, 0)]. *)
Lemma zero_extent_move_accepted :
  ∃ (h' : heap) g',
    add_noise_to_bboxes [0%nat] (0, 0) true 5 true 5
      (λ _, [3; 3; 3; 3]) (Rng (λ _, 2%nat) 0) = Ok ([0%nat], h', g') ∧
    h' 0%nat = [0; 0; 0; 0] ∧
    h' 0%nat ≠ [3; 3; 3; 3].
Proof. eexists _, _. split; [reflexivity|]. by vm_compute. Qed.

(** ** [create_or_destroy_bboxes] *)

Lemma foldl_cons {A B} (f : A → B → A) a x l :
  foldl f a (x :: l) = foldl f (f a x) l.
Proof. reflexivity. Qed.

Lemma draws_from_S g n :
  draws_from g (S n) =
  uniform_of_raw (rng_raw g (rng_pos g)) :: draws_from (next_raw g).2 n.
Proof.
  unfold draws_from. simpl. rewrite Nat.add_0_r. f_equal.
  rewrite <-fmap_S_seq, <-list_fmap_compose. apply list_fmap_ext.
  intros i x _. simpl. by rewrite Nat.add_succ_r.
Qed.

Lemma Qc_of_Z_div_range m d :
  0 ≤ m < d → (0 ≤ Qc_of_Z m / Qc_of_Z d < 1)%Qc.
Proof.
  intros [Hm Hd].
  assert (0 < Qc_of_Z d)%Qc as Hdpos.
  { apply Qc_of_Z_pos. lia. }
  assert (Qc_of_Z d ≠ 0%Qc) as Hdne.
  { intros Heq. rewrite Heq in Hdpos. by apply Qclt_not_eq in Hdpos. }
  split.
  - apply Qcmult_nonneg_nonneg.
    + by apply Qc_of_Z_nonneg.
    + apply Qclt_le_weak, Qcinv_pos, Hdpos.
  - apply (Qcmult_lt_mono_pos_r _ _ (Qc_of_Z d)); [done|].
    rewrite Qcmult_1_l, (Qcmult_comm _ (Qc_of_Z d)), Qcmult_div_r by done.
    by rewrite <-Z2Qc_inj_lt.
Qed.

Lemma uniform_of_raw_range r : (0 ≤ uniform_of_raw r < 1)%Qc.
Proof.
  unfold uniform_of_raw. apply Qc_of_Z_div_range.
  apply Z.mod_pos_bound. lia.
Qed.

Lemma create_or_destroy_fold {A} (bboxes : list A) prob acc g :
  foldl (λ '(final_bboxes, g) bbox,
           let '(v, g) := random g in
           if bool_decide (prob < v)%Qc then (final_bboxes ++ [bbox], g)
           else (final_bboxes, g))
        (acc, g) bboxes =
  (acc ++ retained bboxes prob (draws_from g (length bboxes)),
   Rng (rng_raw g) (rng_pos g + length bboxes)).
Proof.
  revert acc g. induction bboxes as [|bbox bboxes IH]; intros acc g.
  - simpl. rewrite app_nil_r, Nat.add_0_r. by destruct g.
  - rewrite foldl_cons. cbv beta iota. cbn [length]. rewrite draws_from_S.
    destruct (random g) as [v g1] eqn:Hrandom.
    unfold random, next_raw in Hrandom. injection Hrandom as <- <-.
    unfold retained. cbn [zip_with]. rewrite filter_cons. cbn [snd].
    rewrite Nat.add_succ_r.
    case_bool_decide as Hlt; rewrite IH; cbn [rng_raw rng_pos next_raw snd].
    + rewrite decide_True by done. by rewrite fmap_cons, <-app_assoc.
    + by rewrite decide_False by done.
Qed.

(** C9: [create_or_destroy_bboxes] builds its result in a list of its own,
    giving every box a draw of its own from [[0, 1)]; the result holds
    exactly the boxes with [prob < v] for their draw [v], in input
    order. *)
Theorem create_or_destroy_retains {A} (bboxes : list A) (prob : Qc)
    (g : rng) :
  let draws := draws_from g (length bboxes) in
  create_or_destroy_bboxes bboxes prob g =
    (retained bboxes prob draws,
     Rng (rng_raw g) (rng_pos g + length bboxes)) ∧
  length draws = length bboxes ∧
  Forall (λ v, 0 ≤ v < 1)%Qc draws ∧
  (∀ b, b ∈ retained bboxes prob draws ↔
        ∃ i v, bboxes !! i = Some b ∧ draws !! i = Some v ∧ (prob < v)%Qc) ∧
  retained bboxes prob draws `sublist_of` bboxes.
Proof.
  intros draws. split_and!.
  - unfold create_or_destroy_bboxes. by rewrite create_or_destroy_fold.
  - unfold draws, draws_from. by rewrite length_fmap, length_seq.
  - apply Forall_fmap, Forall_forall. intros i _. apply uniform_of_raw_range.
  - intros b. unfold retained. rewrite list_elem_of_fmap. split.
    + intros ([b' v] & -> & [Hv Hin]%list_elem_of_filter).
      apply list_elem_of_lookup in Hin as [i Hi].
      apply lookup_zip_with_Some in Hi as (b'' & v' & ? & ? & ?).
      simplify_eq. eauto.
    + intros (i & v & Hb & Hv & Hlt). exists (b, v). split; [done|].
      apply list_elem_of_filter. split; [done|].
      apply list_elem_of_lookup. exists i.
      apply lookup_zip_with_Some. eauto.
  - unfold retained. generalize draws. clear.
    induction bboxes as [|b bboxes IH]; intros [|v draws]; simpl;
      try apply sublist_nil_l.
    rewrite filter_cons. destruct (decide _); simpl.
    + by apply sublist_skip.
    + by apply sublist_cons.
Qed.

(** ** [apk] *)

Lemma slice_to_nat {A} (l : list A) (n : nat) :
  slice_to l (Z.of_nat n) = take n l.
Proof.
  unfold slice_to. rewrite bool_decide_eq_false_2 by lia.
  by rewrite Nat2Z.id.
Qed.

Lemma enumerate_cons {A} (x : A) l :
  enumerate (x :: l) = (0%nat, x) :: imap (λ i y, (S i, y)) l.
Proof. reflexivity. Qed.

Section apk_properties.
Context {A : Type} `{EqDecision A}.
Implicit Types actual predicted seen rest : list A.

(** The state of the scoring loop after the prefix [seen] of
    [predicted], continued over [rest]. *)
Lemma apk_loop_walk actual seen rest score num_hits :
  (foldl (apk_body actual (seen ++ rest)) (score, num_hits)
         (imap (λ i p, (length seen + i, p)%nat) rest)).1 =
  apk_walk actual seen rest (length seen) num_hits score.
Proof.
  revert seen score num_hits.
  induction rest as [|p rest IH]; intros seen score num_hits; [done|].
  rewrite imap_cons, foldl_cons. cbn [apk_walk].
  assert (take (length seen + 0) (seen ++ p :: rest) = seen) as Hseen.
  { by rewrite Nat.add_0_r, take_app_length. }
  assert (Qc_of_Z (Z.of_nat (length seen + 0)) + 1 =
          Qc_of_Z (Z.of_nat (length seen + 1)))%Qc as Hidx.
  { rewrite Nat.add_0_r, Nat2Z.inj_add, Z2Qc_inj_add.
    by rewrite <-Z2Qc_inj_1. }
  assert (∀ st, foldl (apk_body actual (seen ++ p :: rest)) st
                  (imap ((λ i x, (length seen + i, x)%nat) ∘ S) rest) =
                foldl (apk_body actual ((seen ++ [p]) ++ rest)) st
                  (imap (λ i x, (length (seen ++ [p]) + i, x)%nat) rest))
    as Hrest.
  { intros st. rewrite <-app_assoc. simpl. f_equal.
    apply imap_ext. intros i x _. simpl. f_equal.
    rewrite length_app. simpl. lia. }
  unfold apk_body at 2. rewrite slice_to_nat, Hseen, Hidx.
  destruct (bool_decide (p ∈ actual)) eqn:Hact,
           (bool_decide (p ∈ seen)) eqn:Hdup; cbn [andb negb].
  - rewrite bool_decide_eq_false_2.
    2:{ apply bool_decide_eq_true in Hdup. tauto. }
    rewrite Hrest, IH. by rewrite length_app, Nat.add_1_r.
  - rewrite bool_decide_eq_true_2.
    2:{ apply bool_decide_eq_true in Hact.
        apply bool_decide_eq_false in Hdup. done. }
    rewrite Hrest, IH. by rewrite length_app, Nat.add_1_r.
  - rewrite bool_decide_eq_false_2.
    2:{ apply bool_decide_eq_false in Hact. tauto. }
    rewrite Hrest, IH. by rewrite length_app, Nat.add_1_r.
  - rewrite bool_decide_eq_false_2.
    2:{ apply bool_decide_eq_false in Hact. tauto. }
    rewrite Hrest, IH. by rewrite length_app, Nat.add_1_r.
Qed.

Lemma apk_score_walk actual predicted :
  (foldl (apk_body actual predicted) (0%Qc, 0%Qc) (enumerate predicted)).1 =
  apk_walk actual [] predicted 0 0%Qc 0%Qc.
Proof. apply (apk_loop_walk actual [] predicted). Qed.

(** C3: for a number [k] of elements, [apk] computes the reference
    algorithm: truncate [predicted] to its first [k] elements if longer,
    walk it crediting the first occurrence of every member of [actual]
    with [numHits/(i+1)], return [0.0] for an empty [actual] and
    [score / min(|actual|, k)] otherwise. *)
Theorem apk_is_reference actual predicted (k : nat) :
  apk actual predicted (Z.of_nat k) = apk_reference actual predicted k.
Proof.
  unfold apk, apk_reference.
  assert ((if bool_decide (Z.of_nat k < len predicted)
           then slice_to predicted (Z.of_nat k) else predicted) =
          (if bool_decide (k < length predicted)%nat
           then take k predicted else predicted)) as ->.
  { rewrite slice_to_nat. unfold len.
    destruct (decide (k < length predicted)%nat).
    - rewrite !bool_decide_eq_true_2 by lia. done.
    - rewrite !bool_decide_eq_false_2 by lia. done. }
  set (truncated := if bool_decide (k < length predicted)%nat
                    then take k predicted else predicted).
  pose proof (apk_score_walk actual truncated) as Hscore.
  destruct (foldl _ _ _) as [score num_hits]. simpl in Hscore. subst score.
  destruct actual as [|a actual]; [done|].
  unfold len. by rewrite Nat2Z.inj_min.
Qed.

Lemma credited_elem actual seen rest x :
  x ∈ credited actual seen rest → x ∈ actual ∧ x ∉ seen.
Proof.
  revert seen. induction rest as [|p rest IH]; intros seen; simpl.
  { by intros ?%elem_of_nil. }
  assert (x ∈ credited actual (seen ++ [p]) rest → x ∈ actual ∧ x ∉ seen).
  { intros [? Hx]%IH. split; [done|]. intros ?. apply Hx, elem_of_app. auto. }
  case_bool_decide as Hp; [|done].
  intros [->|?]%elem_of_cons; auto.
Qed.

Lemma credited_NoDup actual seen rest : NoDup (credited actual seen rest).
Proof.
  revert seen. induction rest as [|p rest IH]; intros seen; simpl.
  { apply NoDup_nil_2. }
  case_bool_decide; [|done]. apply NoDup_cons_2; [|done].
  intros [_ Hp]%credited_elem. apply Hp, elem_of_app. right. by left.
Qed.

Lemma credited_length_actual actual seen rest :
  (length (credited actual seen rest) ≤ length actual)%nat.
Proof.
  apply submseteq_length, NoDup_submseteq; [apply credited_NoDup|].
  by intros x [? _]%credited_elem.
Qed.

Lemma credited_length_rest actual seen rest :
  (length (credited actual seen rest) ≤ length rest)%nat.
Proof.
  revert seen. induction rest as [|p rest IH]; intros seen; simpl; [done|].
  case_bool_decide; simpl; [apply le_n_S, IH|].
  by apply Nat.le_le_succ_r.
Qed.

(** The walk adds at most 1 per credited item to the score. *)
Lemma apk_walk_bounds actual seen rest (n : nat) score :
  (n ≤ length seen)%nat →
  (score ≤ apk_walk actual seen rest (length seen)
             (Qc_of_Z (Z.of_nat n)) score
         ≤ score + Qc_of_Z (Z.of_nat (length (credited actual seen rest))))%Qc.
Proof.
  revert seen n score.
  induction rest as [|p rest IH]; intros seen n score Hn;
    cbn [apk_walk credited].
  { change (Z.of_nat (length [])) with 0.
    rewrite Z2Qc_inj_0, Qcplus_0_r. split; apply Qcle_refl. }
  assert (length (seen ++ [p]) = S (length seen)) as Hlen.
  { rewrite length_app. simpl. lia. }
  case_bool_decide as Hp.
  - assert (Qc_of_Z (Z.of_nat n) + 1 = Qc_of_Z (Z.of_nat (S n)))%Qc as ->.
    { by rewrite Nat2Z.inj_succ, <-Z.add_1_r, Z2Qc_inj_add, Z2Qc_inj_1. }
    destruct (Qc_div_unit (Qc_of_Z (Z.of_nat (S n)))
                (Qc_of_Z (Z.of_nat (length seen + 1)))) as [Ht0 Ht1].
    { split; [apply Qc_of_Z_nonneg; lia|].
      rewrite <-Z2Qc_inj_le. lia. }
    { apply Qc_of_Z_pos. lia. }
    set (t := (Qc_of_Z (Z.of_nat (S n))
               / Qc_of_Z (Z.of_nat (length seen + 1)))%Qc) in *.
    destruct (IH (seen ++ [p]) (S n) (score + t)%Qc) as [Hlo Hhi].
    { rewrite Hlen. lia. }
    rewrite Hlen in Hlo, Hhi. split.
    + etrans; [|exact Hlo].
      rewrite <-(Qcplus_0_r score) at 1. by apply Qcplus_le_mono_l.
    + etrans; [exact Hhi|]. cbn [length].
      rewrite Nat2Z.inj_succ, <-Z.add_1_l, Z2Qc_inj_add, Z2Qc_inj_1.
      rewrite !Qcplus_assoc. apply Qcplus_le_mono_r. by apply Qcplus_le_mono_l.
  - destruct (IH (seen ++ [p]) n score) as [Hlo Hhi].
    { rewrite Hlen. lia. }
    by rewrite Hlen in Hlo, Hhi.
Qed.

(** C4: for [k >= 1] the average precision at [k] is a number in
    [[0, 1]]. *)
Theorem apk_unit_interval actual predicted (k : Z) :
  1 ≤ k →
  ∃ q, apk actual predicted k = Ok q ∧ (0 ≤ q ≤ 1)%Qc.
Proof.
  intros Hk. unfold apk.
  set (truncated := if bool_decide (k < len predicted)
                    then slice_to predicted k else predicted).
  assert (len truncated ≤ k) as Htrunc.
  { unfold truncated, len. case_bool_decide; [|unfold len in *; lia].
    unfold slice_to. rewrite bool_decide_eq_false_2 by lia.
    rewrite length_take. lia. }
  pose proof (apk_score_walk actual truncated) as Hscore.
  destruct (foldl _ _ _) as [score num_hits]. simpl in Hscore. subst score.
  destruct actual as [|a actual].
  { exists 0%Qc. split; [done|]. split; [apply Qcle_refl|done]. }
  set (act := a :: actual) in *.
  destruct (apk_walk_bounds act [] truncated 0 0%Qc) as [Hlo Hhi]; [done|].
  change (Z.of_nat 0) with 0 in Hlo, Hhi.
  change (length (@nil A)) with 0%nat in Hlo, Hhi.
  rewrite Z2Qc_inj_0 in Hlo, Hhi. rewrite Qcplus_0_l in Hhi.
  pose proof (credited_length_actual act [] truncated) as Hca.
  pose proof (credited_length_rest act [] truncated) as Hcr.
  assert (1 ≤ Z.min (len act) k) as Hmin.
  { unfold len, act. simpl length. lia. }
  destruct (Qc_div_unit (apk_walk act [] truncated 0 0%Qc 0%Qc)
              (Qc_of_Z (Z.min (len act) k))) as [Hq0 Hq1].
  { split; [done|]. etrans; [exact Hhi|].
    rewrite <-Z2Qc_inj_le. unfold len in *. lia. }
  { apply Qc_of_Z_pos. lia. }
  eexists. split; [|split; [exact Hq0|exact Hq1]].
  unfold float_div. rewrite decide_False; [done|].
  rewrite Qc_of_Z_eq_0. lia.
Qed.
End apk_properties.

Lemma apk_unit_interval_witness :
  1 ≤ 2 ∧
  ∃ q, apk [1; 3] [1; 2; 3] 2 = Ok q ∧ (0 ≤ q ≤ 1)%Qc.
Proof.
  split; [lia|]. apply (apk_unit_interval [1; 3] [1; 2; 3] 2). lia.
Defined.

(** ** [mapk] *)

Lemma mapM_cons {A B} (f : A → result B) x l :
  mapM f (x :: l) = f x ≫= λ y, mapM f l ≫= λ ys, Ok (y :: ys).
Proof. reflexivity. Qed.

Lemma mapM_fmap {A B C} (f : B → result C) (g : A → B) l :
  mapM f (g <$> l) = mapM (f ∘ g) l.
Proof.
  induction l as [|x l IH]; [done|].
  by rewrite fmap_cons, !mapM_cons, IH.
Qed.

Lemma mapM_Ok_length {A B} (f : A → result B) l ys :
  mapM f l = Ok ys → length ys = length l.
Proof.
  revert ys. induction l as [|x l IH]; intros ys.
  { by intros [= <-]. }
  rewrite mapM_cons. destruct (f x) as [y|]; [|done]. rewrite bind_Ok.
  destruct (mapM f l) as [ys'|]; [|done]. rewrite bind_Ok.
  intros [= <-]. simpl. f_equal. by apply IH.
Qed.

(** A comprehension over [zip(l1, l2)] visits the positions below the
    shorter length, in order. *)
Lemma mapM_zip_positions {A B C} (f : A * B → result C)
    `{Inhabited A, Inhabited B} (l1 : list A) (l2 : list B) :
  mapM f (zip l1 l2) =
  mapM (λ i, f (l1 !!! i, l2 !!! i))
       (seq 0 (length l1 `min` length l2)).
Proof.
  revert l2. induction l1 as [|x l1 IH]; intros [|y l2]; try done.
  cbn [zip_with length Nat.min seq]. rewrite !mapM_cons.
  rewrite <-fmap_S_seq, mapM_fmap, IH. reflexivity.
Qed.

Section mapk_properties.
Context {A : Type} `{EqDecision A}.

(** C5: on non-empty lists of lists, [mapk] is the arithmetic mean of
    the [apk] scores of the pairs at equal positions, up to the length
    of the shorter list. *)
Theorem mapk_is_mean (actual predicted : list (list A)) (k : Z) :
  actual ≠ [] → predicted ≠ [] →
  mapk actual predicted k = mapk_reference actual predicted k.
Proof.
  intros Hactual Hpredicted. unfold mapk, mapk_reference.
  rewrite (mapM_zip_positions (λ '(a, p), apk a p k) actual predicted).
  set (n := (length actual `min` length predicted)%nat).
  destruct (mapM _ (seq 0 n)) as [scores|e] eqn:Hscores; [|done].
  rewrite !bind_Ok. apply mapM_Ok_length in Hscores.
  rewrite length_seq in Hscores.
  assert (n ≠ 0)%nat as Hn.
  { unfold n. destruct actual, predicted; simpl; done. }
  unfold np_mean, len. rewrite Hscores.
  destruct scores; [done|reflexivity].
Qed.
End mapk_properties.

Lemma mapk_is_mean_witness :
  [[1; 3]; [2]] ≠ [] ∧ [[1; 2; 3]; [2]; [5]] ≠ [] ∧
  mapk [[1; 3]; [2]] [[1; 2; 3]; [2]; [5]] 2 =
  mapk_reference [[1; 3]; [2]] [[1; 2; 3]; [2]; [5]] 2.
Proof.
  split; [done|]. split; [done|].
  apply (mapk_is_mean [[1; 3]; [2]] [[1; 2; 3]; [2]; [5]] 2); done.
Defined.


(** * Further properties of the code *)

(** ** [bbox_iou] *)

Lemma bbox_iou_cons4 tA lA bA rA ra tB lB bB rB rb :
  bbox_iou (tA :: lA :: bA :: rA :: ra) (tB :: lB :: bB :: rB :: rb) =
  float_div (Qc_of_Z (inter_area_spec tA lA bA rA tB lB bB rB))
            (Qc_of_Z (union_area_spec tA lA bA rA tB lB bB rB)).
Proof. reflexivity. Qed.

Lemma inter_area_spec_comm tA lA bA rA tB lB bB rB :
  inter_area_spec tA lA bA rA tB lB bB rB =
  inter_area_spec tB lB bB rB tA lA bA rA.
Proof.
  unfold inter_area_spec.
  by rewrite (Z.max_comm lA), (Z.max_comm tA), (Z.min_comm rA), (Z.min_comm bA).
Qed.

Lemma inter_area_spec_bounds tA lA bA rA tB lB bB rB :
  tA ≤ bA → lA ≤ rA →
  0 ≤ inter_area_spec tA lA bA rA tB lB bB rB ≤ box_area tA lA bA rA.
Proof.
  intros Ht Hl. unfold inter_area_spec, box_area.
  set (w := Z.max 0 (Z.min rA rB - Z.max lA lB + 1)).
  set (h := Z.max 0 (Z.min bA bB - Z.max tA tB + 1)).
  assert (0 ≤ w ≤ rA - lA + 1) by (unfold w; lia).
  assert (0 ≤ h ≤ bA - tA + 1) by (unfold h; lia).
  nia.
Qed.

Lemma box_area_pos t l b r : t ≤ b → l ≤ r → 0 < box_area t l b r.
Proof. intros. unfold box_area. nia. Qed.

Lemma float_div_Ok a b : b ≠ 0%Qc → float_div a b = Ok (a / b)%Qc.
Proof. intros. unfold float_div. by rewrite decide_False. Qed.

(** [bbox_iou] does not depend on the order of its two arguments, short
    boxes included. *)
Theorem bbox_iou_symmetric (bbox_a bbox_b : list Z) :
  bbox_iou bbox_a bbox_b = bbox_iou bbox_b bbox_a.
Proof.
  destruct bbox_a as [|tA [|lA [|bA [|rA ra]]]];
    destruct bbox_b as [|tB [|lB [|bB [|rB rb]]]]; try reflexivity.
  rewrite !bbox_iou_cons4. unfold union_area_spec.
  rewrite (inter_area_spec_comm tA). do 2 f_equal. lia.
Qed.

(** A box with [top <= bottom] and [left <= right] has IoU 1 with
    itself. *)
Theorem bbox_iou_self_is_one (top left bottom right : Z) (ra rb : list Z) :
  top ≤ bottom → left ≤ right →
  bbox_iou (top :: left :: bottom :: right :: ra)
           (top :: left :: bottom :: right :: rb) = Ok 1%Qc.
Proof.
  intros Ht Hl. rewrite bbox_iou_cons4.
  pose proof (box_area_pos top left bottom right Ht Hl) as Hpos.
  assert (inter_area_spec top left bottom right top left bottom right =
          box_area top left bottom right) as Hinter.
  { unfold inter_area_spec, box_area.
    rewrite !Z.max_id, !Z.min_id. lia. }
  unfold union_area_spec. rewrite Hinter.
  replace (box_area top left bottom right + box_area top left bottom right
           - box_area top left bottom right)
    with (box_area top left bottom right) by lia.
  assert (Qc_of_Z (box_area top left bottom right) ≠ 0%Qc) as Hne.
  { rewrite Qc_of_Z_eq_0. lia. }
  rewrite float_div_Ok by done. f_equal. by apply Qcmult_inv_r.
Qed.

Lemma bbox_iou_self_is_one_witness :
  3 ≤ 7 ∧ 1 ≤ 9 ∧ bbox_iou [3; 1; 7; 9] [3; 1; 7; 9] = Ok 1%Qc.
Proof.
  split; [lia|]. split; [lia|].
  apply (bbox_iou_self_is_one 3 1 7 9 [] []); lia.
Defined.

(** For two boxes with [top <= bottom] and [left <= right], [bbox_iou]
    never fails and returns a number in [[0, 1]]. *)
Theorem bbox_iou_unit_interval (tA lA bA rA tB lB bB rB : Z)
    (ra rb : list Z) :
  tA ≤ bA → lA ≤ rA → tB ≤ bB → lB ≤ rB →
  ∃ q, bbox_iou (tA :: lA :: bA :: rA :: ra) (tB :: lB :: bB :: rB :: rb)
         = Ok q ∧ (0 ≤ q ≤ 1)%Qc.
Proof.
  intros HtA HlA HtB HlB. rewrite bbox_iou_cons4.
  pose proof (inter_area_spec_bounds tA lA bA rA tB lB bB rB HtA HlA) as Hi.
  pose proof (inter_area_spec_bounds tB lB bB rB tA lA bA rA HtB HlB) as Hi'.
  rewrite <-inter_area_spec_comm in Hi'.
  pose proof (box_area_pos tB lB bB rB HtB HlB) as HB.
  unfold union_area_spec.
  set (inter := inter_area_spec tA lA bA rA tB lB bB rB) in *.
  set (union := box_area tA lA bA rA + box_area tB lB bB rB - inter).
  assert (0 < union) by (unfold union; lia).
  exists (Qc_of_Z inter / Qc_of_Z union)%Qc. split.
  - apply float_div_Ok. rewrite Qc_of_Z_eq_0. lia.
  - apply Qc_div_unit; [|by apply Qc_of_Z_pos].
    split; [apply Qc_of_Z_nonneg; lia|].
    rewrite <-Z2Qc_inj_le. unfold union. lia.
Qed.

Lemma bbox_iou_unit_interval_witness :
  ∃ q, bbox_iou [0; 0; 9; 9] [5; 5; 14; 14] = Ok q ∧ (0 ≤ q ≤ 1)%Qc.
Proof. apply (bbox_iou_unit_interval 0 0 9 9 5 5 14 14 [] []); lia. Defined.

(** Two boxes separated along one axis have IoU 0, provided their areas
    do not sum to zero. *)
Theorem bbox_iou_disjoint_is_zero (tA lA bA rA tB lB bB rB : Z)
    (ra rb : list Z) :
  rA < lB ∨ rB < lA ∨ bA < tB ∨ bB < tA →
  box_area tA lA bA rA + box_area tB lB bB rB ≠ 0 →
  bbox_iou (tA :: lA :: bA :: rA :: ra) (tB :: lB :: bB :: rB :: rb)
    = Ok 0%Qc.
Proof.
  intros Hsep Hne. rewrite bbox_iou_cons4.
  assert (inter_area_spec tA lA bA rA tB lB bB rB = 0) as Hinter.
  { unfold inter_area_spec.
    destruct Hsep as [?|[?|[?|?]]].
    - replace (Z.max 0 (Z.min rA rB - Z.max lA lB + 1)) with 0 by lia. lia.
    - replace (Z.max 0 (Z.min rA rB - Z.max lA lB + 1)) with 0 by lia. lia.
    - replace (Z.max 0 (Z.min bA bB - Z.max tA tB + 1)) with 0 by lia. lia.
    - replace (Z.max 0 (Z.min bA bB - Z.max tA tB + 1)) with 0 by lia. lia. }
  unfold union_area_spec. rewrite Hinter, Z.sub_0_r.
  rewrite float_div_Ok by (by rewrite Qc_of_Z_eq_0).
  f_equal. rewrite Z2Qc_inj_0. unfold Qcdiv. apply Qcmult_0_l.
Qed.

Lemma bbox_iou_disjoint_is_zero_witness :
  bbox_iou [0; 0; 9; 9] [0; 20; 9; 29] = Ok 0%Qc.
Proof.
  apply (bbox_iou_disjoint_is_zero 0 0 9 9 0 20 9 29 [] []);
    [left; lia|by vm_compute].
Defined.

(** A box with fewer than four elements makes [bbox_iou] raise
    [IndexError], whatever the other box is. *)
Theorem bbox_iou_short_box (bbox_a bbox_b : list Z) :
  (length bbox_a < 4 ∨ length bbox_b < 4)%nat →
  bbox_iou bbox_a bbox_b = Raise IndexError.
Proof.
  intros Hshort.
  destruct bbox_a as [|tA [|lA [|bA [|rA ra]]]];
    destruct bbox_b as [|tB [|lB [|bB [|rB rb]]]]; try reflexivity.
  simpl in Hshort. lia.
Qed.

Lemma bbox_iou_short_box_witness :
  bbox_iou [0; 0; 9] [0; 0; 9; 9] = Raise IndexError.
Proof. apply (bbox_iou_short_box [0; 0; 9] [0; 0; 9; 9]). left. simpl. lia. Defined.

(** Only the first four elements of each box are read. *)
Theorem bbox_iou_first_four (bbox_a bbox_b : list Z) :
  bbox_iou bbox_a bbox_b = bbox_iou (take 4 bbox_a) (take 4 bbox_b).
Proof.
  destruct bbox_a as [|tA [|lA [|bA [|rA ra]]]];
    destruct bbox_b as [|tB [|lB [|bB [|rB rb]]]]; reflexivity.
Qed.

(** ** [precision] and [recall] *)

(** Under true division, counts that are not negative and not both zero
    give a precision, and a recall, in [[0, 1]]. *)
Theorem precision_recall_unit_interval (tp other : Z) :
  0 ≤ tp → 0 ≤ other → 0 < tp + other →
  ∃ q, precision Py3 tp other = Ok q ∧ recall Py3 tp other = Ok q ∧
       (0 ≤ q ≤ 1)%Qc.
Proof.
  intros Htp Hother Hsum. unfold precision, recall, int_div.
  rewrite decide_False by lia. eexists. split; [done|]. split; [done|].
  apply Qc_div_unit; [|by apply Qc_of_Z_pos].
  split; [by apply Qc_of_Z_nonneg|]. rewrite <-Z2Qc_inj_le. lia.
Qed.

Lemma precision_recall_unit_interval_witness :
  ∃ q, precision Py3 3 1 = Ok q ∧ recall Py3 3 1 = Ok q ∧ (0 ≤ q ≤ 1)%Qc.
Proof. apply (precision_recall_unit_interval 3 1); lia. Defined.

(** Under Python 2, where [/] on two integers is floor division, integer
    counts give precision 0 as soon as there is one false positive, and 1
    when there is none. *)
Theorem precision_py2_floor (tp fp : Z) :
  0 ≤ tp → 0 ≤ fp → 0 < tp + fp →
  precision Py2 tp fp = Ok (if decide (fp = 0) then 1%Qc else 0%Qc).
Proof.
  intros Htp Hfp Hsum. unfold precision, int_div.
  rewrite decide_False by lia. f_equal.
  destruct (decide (fp = 0)) as [->|Hne].
  - rewrite Z.add_0_r, Z.div_same by lia. apply Z2Qc_inj_1.
  - rewrite Z.div_small by lia. apply Z2Qc_inj_0.
Qed.

Lemma precision_py2_floor_witness :
  precision Py2 9 1 = Ok (if decide (1 = 0) then 1%Qc else 0%Qc).
Proof. apply (precision_py2_floor 9 1); lia. Defined.

(** ** [apk], continued *)

Lemma foldl_ext_fun {A B} (f g : A → B → A) a l :
  (∀ a b, f a b = g a b) → foldl f a l = foldl g a l.
Proof.
  intros Hfg. revert a. induction l as [|b l IH]; intros a; [done|].
  by rewrite !foldl_cons, Hfg, IH.
Qed.

Lemma Qc_div_nonpos (a b : Qc) : (0 ≤ a)%Qc → (b < 0)%Qc → (a / b ≤ 0)%Qc.
Proof.
  intros Ha Hb.
  assert (b ≠ 0%Qc) as Hne.
  { intros ->. by apply Qclt_not_eq in Hb. }
  assert (0 < - b)%Qc as Hnb.
  { apply Qclt_minus_iff in Hb. by rewrite Qcplus_0_l in Hb. }
  assert (0 ≤ a / - b)%Qc as Hq.
  { apply Qcmult_nonneg_nonneg; [done|]. by apply Qclt_le_weak, Qcinv_pos. }
  apply Qcopp_le_compat in Hq.
  assert (- 0 = 0)%Qc as Hzero by ring.
  assert (a / b = - (a / - b))%Qc as ->.
  { field. split; [|done]. intros Heq. rewrite Heq in Hnb.
    by apply Qclt_not_eq in Hnb. }
  by rewrite Hzero in Hq.
Qed.

Section apk_more.
Context {A : Type} `{EqDecision A}.
Implicit Types actual predicted seen rest : list A.

(** The list [apk] scores: [predicted], cut to [predicted[:k]] when it is
    longer than [k]. *)
Lemma apk_via_walk actual predicted k :
  apk actual predicted k =
  match actual with
  | [] => Ok 0%Qc
  | _ =>
      float_div
        (apk_walk actual []
           (if bool_decide (k < len predicted) then slice_to predicted k
            else predicted) 0 0%Qc 0%Qc)
        (Qc_of_Z (Z.min (len actual) k))
  end.
Proof.
  unfold apk.
  set (truncated := if bool_decide (k < len predicted)
                    then slice_to predicted k else predicted).
  pose proof (apk_score_walk actual truncated) as Hscore.
  destruct (foldl _ _ _) as [score num_hits]. simpl in Hscore.
  by subst score.
Qed.

Lemma slice_to_subseteq (l : list A) k : slice_to l k ⊆ l.
Proof. unfold slice_to. apply subseteq_take. Qed.

Lemma apk_walk_nonneg actual rest :
  (0 ≤ apk_walk actual [] rest 0 0%Qc 0%Qc)%Qc.
Proof.
  destruct (apk_walk_bounds actual [] rest 0 0%Qc) as [Hlo _]; [done|].
  change (length (@nil A)) with 0%nat in Hlo.
  change (Z.of_nat 0) with 0 in Hlo. by rewrite Z2Qc_inj_0 in Hlo.
Qed.

(** With [k = 0] and a non-empty [actual], [apk] raises
    [ZeroDivisionError] for every [predicted]. *)
Theorem apk_zero_k_raises actual predicted :
  actual ≠ [] → apk actual predicted 0 = Raise ZeroDivisionError.
Proof.
  intros Hactual. rewrite apk_via_walk.
  destruct actual as [|a actual]; [done|].
  replace (Z.min (len (a :: actual)) 0) with 0 by (unfold len; lia).
  unfold float_div. by rewrite decide_True by apply Z2Qc_inj_0.
Qed.

(** With a negative [k] and a non-empty [actual], [apk] does not fail: it
    returns a number that is not positive. *)
Theorem apk_negative_k actual predicted (k : Z) :
  actual ≠ [] → k < 0 →
  ∃ q, apk actual predicted k = Ok q ∧ (q ≤ 0)%Qc.
Proof.
  intros Hactual Hk. rewrite apk_via_walk.
  destruct actual as [|a actual]; [done|].
  replace (Z.min (len (a :: actual)) k) with k by (unfold len; lia).
  assert (Qc_of_Z k < 0)%Qc as Hneg.
  { rewrite <-Z2Qc_inj_0. by rewrite <-Z2Qc_inj_lt. }
  eexists. split.
  - apply float_div_Ok. intros Heq. rewrite Heq in Hneg.
    by apply Qclt_not_eq in Hneg.
  - apply Qc_div_nonpos; [apply apk_walk_nonneg|done].
Qed.

(** The order of [actual] does not matter. *)
Theorem apk_actual_order actual actual' predicted (k : Z) :
  actual ≡ₚ actual' →
  apk actual predicted k = apk actual' predicted k.
Proof.
  intros Hperm. unfold apk.
  set (truncated := if bool_decide (k < len predicted)
                    then slice_to predicted k else predicted).
  rewrite (foldl_ext_fun (apk_body actual truncated)
             (apk_body actual' truncated)).
  2:{ intros [score num_hits] [i p]. unfold apk_body.
      by rewrite (bool_decide_ext (p ∈ actual) (p ∈ actual'))
        by (by rewrite Hperm). }
  destruct (foldl _ _ _) as [score num_hits].
  unfold len. rewrite (Permutation_length Hperm).
  destruct actual as [|a actual], actual' as [|a' actual']; try done.
  - by apply Permutation_nil_cons in Hperm.
  - symmetry in Hperm. by apply Permutation_nil_cons in Hperm.
Qed.

(** Only the first [k] predictions count. *)
Theorem apk_first_k actual predicted (k : nat) :
  apk actual predicted (Z.of_nat k) =
  apk actual (take k predicted) (Z.of_nat k).
Proof.
  rewrite !apk_via_walk.
  assert ((if bool_decide (Z.of_nat k < len predicted)
           then slice_to predicted (Z.of_nat k) else predicted) =
          take k predicted) as ->.
  { rewrite slice_to_nat. case_bool_decide as Hlt; [done|].
    unfold len in Hlt. rewrite take_ge; [done|lia]. }
  rewrite bool_decide_eq_false_2; [done|].
  unfold len. rewrite length_take. lia.
Qed.

Lemma apk_walk_no_hit actual seen rest i num_hits score :
  (∀ p, p ∈ rest → p ∉ actual) →
  apk_walk actual seen rest i num_hits score = score.
Proof.
  revert seen i. induction rest as [|p rest IH]; intros seen i Hmiss; [done|].
  cbn [apk_walk]. rewrite bool_decide_eq_false_2.
  - apply IH. intros q Hq. apply Hmiss. by right.
  - intros [Hp _]. apply (Hmiss p); [by left|done].
Qed.

(** When no prediction is a member of [actual], the score is 0 (for
    [k] other than 0 and a non-empty [actual]). *)
Theorem apk_no_hit actual predicted (k : Z) :
  actual ≠ [] → k ≠ 0 → (∀ p, p ∈ predicted → p ∉ actual) →
  apk actual predicted k = Ok 0%Qc.
Proof.
  intros Hactual Hk Hmiss. rewrite apk_via_walk.
  destruct actual as [|a actual]; [done|].
  rewrite apk_walk_no_hit.
  2:{ intros p Hp. apply Hmiss. case_bool_decide; [|done].
      by apply (slice_to_subseteq predicted k). }
  rewrite float_div_Ok.
  - f_equal. unfold Qcdiv. apply Qcmult_0_l.
  - rewrite Qc_of_Z_eq_0. unfold len. simpl length. lia.
Qed.

Lemma apk_walk_all_hits actual seen rest score :
  (∀ p, p ∈ rest → p ∈ actual) → NoDup (seen ++ rest) →
  apk_walk actual seen rest (length seen)
    (Qc_of_Z (Z.of_nat (length seen))) score =
  (score + Qc_of_Z (Z.of_nat (length rest)))%Qc.
Proof.
  revert seen score.
  induction rest as [|p rest IH]; intros seen score Hin Hnd.
  { cbn [apk_walk length]. change (Z.of_nat 0) with 0.
    by rewrite Z2Qc_inj_0, Qcplus_0_r. }
  cbn [apk_walk]. rewrite bool_decide_eq_true_2.
  2:{ split; [apply Hin; by left|].
      apply list.NoDup_app in Hnd as (_ & Hdisj & _).
      intros Hp. apply (Hdisj p Hp). by left. }
  assert (length (seen ++ [p]) = S (length seen)) as Hlen.
  { rewrite length_app. simpl. lia. }
  assert (Qc_of_Z (Z.of_nat (length seen)) + 1 =
          Qc_of_Z (Z.of_nat (length seen + 1)))%Qc as Hnext.
  { by rewrite Nat2Z.inj_add, Z2Qc_inj_add, <-Z2Qc_inj_1. }
  rewrite Hnext.
  assert (Qc_of_Z (Z.of_nat (length seen + 1))
          / Qc_of_Z (Z.of_nat (length seen + 1)) = 1)%Qc as ->.
  { apply Qcmult_inv_r. rewrite Qc_of_Z_eq_0. lia. }
  rewrite Nat.add_1_r, <-Hlen, IH.
  - cbn [length]. rewrite (Nat2Z.inj_succ (length rest)), <-Z.add_1_l.
    rewrite Z2Qc_inj_add, Z2Qc_inj_1. by rewrite Qcplus_assoc.
  - intros q Hq. apply Hin. by right.
  - by rewrite <-app_assoc.
Qed.

(** Predicting exactly [actual], in any [k >= 1] and without repetition,
    scores 1. *)
Theorem apk_perfect_prediction actual (k : Z) :
  actual ≠ [] → NoDup actual → 1 ≤ k →
  apk actual actual k = Ok 1%Qc.
Proof.
  intros Hactual Hnd Hk. rewrite apk_via_walk.
  destruct actual as [|a actual]; [done|].
  set (act := a :: actual) in *.
  set (truncated := if bool_decide (k < len act) then slice_to act k
                    else act).
  assert (truncated = take (Z.to_nat k) act) as Htake.
  { unfold truncated, slice_to. rewrite (bool_decide_eq_false_2 (k < 0)) by lia.
    case_bool_decide as Hlt; [done|].
    unfold len in Hlt. rewrite take_ge; [done|lia]. }
  assert (Z.of_nat (length truncated) = Z.min (len act) k) as Hlen.
  { rewrite Htake, length_take. unfold len. lia. }
  pose proof (apk_walk_all_hits act [] truncated 0%Qc) as Hwalk.
  change (length (@nil A)) with 0%nat in Hwalk.
  change (Z.of_nat 0) with 0 in Hwalk. rewrite Z2Qc_inj_0 in Hwalk.
  rewrite Hwalk, Qcplus_0_l, Hlen.
  - assert (Qc_of_Z (Z.min (len act) k) ≠ 0%Qc) as Hne.
    { rewrite Qc_of_Z_eq_0. unfold len, act. simpl length. lia. }
    rewrite float_div_Ok by done. f_equal. by apply Qcmult_inv_r.
  - intros p Hp. rewrite Htake in Hp. by apply (subseteq_take (Z.to_nat k) act).
  - rewrite app_nil_l, Htake.
    exact (sublist_NoDup _ _ Hnd (sublist_take act (Z.to_nat k))).
Qed.

Lemma apk_walk_repeat actual seen rest p i num_hits score :
  p ∈ seen ++ rest →
  apk_walk actual seen (rest ++ [p]) i num_hits score =
  apk_walk actual seen rest i num_hits score.
Proof.
  revert seen i num_hits score.
  induction rest as [|q rest IH]; intros seen i num_hits score Hp.
  { rewrite app_nil_r in Hp. cbn [app apk_walk].
    rewrite bool_decide_eq_false_2; [done|]. intros [_ Hnot]. done. }
  cbn [app apk_walk].
  assert (p ∈ (seen ++ [q]) ++ rest) as Hp'.
  { by rewrite <-app_assoc. }
  case_bool_decide; by apply IH.
Qed.

(** Predicting once more an item that is already in [predicted] changes
    nothing. *)
Theorem apk_repeated_prediction actual predicted p (k : nat) :
  p ∈ predicted →
  apk actual (predicted ++ [p]) (Z.of_nat k) =
  apk actual predicted (Z.of_nat k).
Proof.
  intros Hp. rewrite !apk_via_walk. destruct actual as [|a actual]; [done|].
  f_equal. rewrite !slice_to_nat. unfold len. rewrite length_app. simpl length.
  destruct (decide (k ≤ length predicted)%nat) as [Hle|Hgt].
  - rewrite (bool_decide_eq_true_2 (Z.of_nat k < _)) by lia.
    rewrite take_app_le by done.
    case_bool_decide; [done|]. rewrite take_ge; [done|lia].
  - rewrite !bool_decide_eq_false_2 by lia.
    by apply apk_walk_repeat.
Qed.
End apk_more.

Lemma apk_zero_k_raises_witness :
  [1] ≠ [] ∧ apk [1] [1; 2] 0 = Raise ZeroDivisionError.
Proof. split; [done|]. by apply (apk_zero_k_raises [1] [1; 2]). Defined.

Lemma apk_negative_k_witness :
  ∃ q, apk [1] [1; 2] (-1) = Ok q ∧ (q ≤ 0)%Qc.
Proof. apply (apk_negative_k [1] [1; 2] (-1)); [done|lia]. Defined.

Lemma apk_actual_order_witness :
  apk [1; 3] [1; 2; 3] 2 = apk [3; 1] [1; 2; 3] 2.
Proof. apply (apk_actual_order [1; 3] [3; 1] [1; 2; 3] 2), perm_swap. Defined.

Lemma apk_no_hit_witness : apk [1; 3] [2; 4] 10 = Ok 0%Qc.
Proof.
  apply (apk_no_hit [1; 3] [2; 4] 10); [done|lia|].
  intros p Hp Hq. apply list_elem_of_In in Hp, Hq. simpl in Hp, Hq. lia.
Defined.

Lemma apk_perfect_prediction_witness : apk [1; 3; 2] [1; 3; 2] 2 = Ok 1%Qc.
Proof.
  apply (apk_perfect_prediction [1; 3; 2] 2); [done| |lia].
  apply NoDup_ListNoDup. repeat constructor; simpl; lia.
Defined.

Lemma apk_repeated_prediction_witness :
  apk [1; 3] ([1; 2] ++ [1]) (Z.of_nat 5) = apk [1; 3] [1; 2] (Z.of_nat 5).
Proof. apply (apk_repeated_prediction [1; 3] [1; 2] 1 5). by left. Defined.

(** ** [mapk], continued *)

Lemma mapM_Forall {A B} (f : A → result B) (P : B → Prop) l :
  (∀ x, x ∈ l → ∃ y, f x = Ok y ∧ P y) →
  ∃ ys, mapM f l = Ok ys ∧ Forall P ys ∧ length ys = length l.
Proof.
  induction l as [|x l IH]; intros Hf.
  { exists []. by split_and!. }
  destruct (Hf x) as (y & Hy & HP); [by left|].
  destruct IH as (ys & Hys & HPs & Hlen).
  { intros x' Hx'. apply Hf. by right. }
  exists (y :: ys). rewrite mapM_cons, Hy, bind_Ok, Hys, bind_Ok.
  split_and!; [done|by constructor|simpl; by f_equal].
Qed.

Lemma Qc_sum_unit_bounds (xs : list Qc) :
  Forall (λ q, 0 ≤ q ≤ 1)%Qc xs →
  (0 ≤ Qc_sum xs ≤ Qc_of_Z (Z.of_nat (length xs)))%Qc.
Proof.
  induction 1 as [|q xs [Hq0 Hq1] _ [IH0 IH1]]; cbn [Qc_sum foldr length].
  { change (Z.of_nat 0) with 0. rewrite Z2Qc_inj_0. split; apply Qcle_refl. }
  fold (Qc_sum xs). split.
  - by apply Qcplus_nonneg_nonneg.
  - rewrite Nat2Z.inj_succ, <-Z.add_1_l, Z2Qc_inj_add, Z2Qc_inj_1.
    by apply Qcplus_le_compat.
Qed.

Section mapk_more.
Context {A : Type} `{EqDecision A}.

(** Each score that [mapk] averages is a number in [[0, 1]]. *)
Lemma apk_unit_interval_aux (actual predicted : list A) (k : Z) :
  1 ≤ k →
  ∃ q, apk actual predicted k = Ok q ∧ (0 ≤ q ≤ 1)%Qc.
Proof.
  intros Hk. unfold apk.
  set (truncated := if bool_decide (k < len predicted)
                    then slice_to predicted k else predicted).
  assert (len truncated ≤ k) as Htrunc.
  { unfold truncated, len. case_bool_decide; [|unfold len in *; lia].
    unfold slice_to. rewrite bool_decide_eq_false_2 by lia.
    rewrite length_take. lia. }
  pose proof (apk_score_walk actual truncated) as Hscore.
  destruct (foldl _ _ _) as [score num_hits]. simpl in Hscore. subst score.
  destruct actual as [|a actual].
  { exists 0%Qc. split; [done|]. split; [apply Qcle_refl|done]. }
  set (act := a :: actual) in *.
  destruct (apk_walk_bounds act [] truncated 0 0%Qc) as [Hlo Hhi]; [done|].
  change (Z.of_nat 0) with 0 in Hlo, Hhi.
  change (length (@nil A)) with 0%nat in Hlo, Hhi.
  rewrite Z2Qc_inj_0 in Hlo, Hhi. rewrite Qcplus_0_l in Hhi.
  pose proof (credited_length_actual act [] truncated) as Hca.
  pose proof (credited_length_rest act [] truncated) as Hcr.
  assert (1 ≤ Z.min (len act) k) as Hmin.
  { unfold len, act. simpl length. lia. }
  destruct (Qc_div_unit (apk_walk act [] truncated 0 0%Qc 0%Qc)
              (Qc_of_Z (Z.min (len act) k))) as [Hq0 Hq1].
  { split; [done|]. etrans; [exact Hhi|].
    rewrite <-Z2Qc_inj_le. unfold len in *. lia. }
  { apply Qc_of_Z_pos. lia. }
  eexists. split; [|split; [exact Hq0|exact Hq1]].
  unfold float_div. rewrite decide_False; [done|].
  rewrite Qc_of_Z_eq_0. lia.
Qed.

(** When one of the two lists of lists is empty, [mapk] is the mean of no
    score at all: numpy's [nan], for every [k] and without raising. *)
Theorem mapk_empty_is_nan (actual predicted : list (list A)) (k : Z) :
  actual = [] ∨ predicted = [] → mapk actual predicted k = Ok NaN.
Proof.
  intros [->| ->]; [done|]. unfold mapk. by destruct actual.
Qed.

(** For [k >= 1] and non-empty inputs, [mapk] never fails and is a number
    in [[0, 1]]. *)
Theorem mapk_unit_interval (actual predicted : list (list A)) (k : Z) :
  actual ≠ [] → predicted ≠ [] → 1 ≤ k →
  ∃ q, mapk actual predicted k = Ok (Finite q) ∧ (0 ≤ q ≤ 1)%Qc.
Proof.
  intros Hactual Hpredicted Hk. unfold mapk.
  destruct (mapM_Forall (λ '(a, p), apk a p k) (λ q, 0 ≤ q ≤ 1)%Qc
              (zip actual predicted)) as (scores & -> & Hscores & Hlen).
  { intros [a p] _. by apply apk_unit_interval_aux. }
  rewrite bind_Ok.
  assert (length scores ≠ 0)%nat as Hn.
  { rewrite Hlen, length_zip_with. destruct actual, predicted; simpl; done. }
  destruct (Qc_sum_unit_bounds scores Hscores) as [Hs0 Hs1].
  destruct scores as [|s scores]; [done|].
  eexists. split; [reflexivity|].
  apply Qc_div_unit; [done|]. apply Qc_of_Z_pos. unfold len. simpl length. lia.
Qed.
End mapk_more.

Lemma mapk_empty_is_nan_witness : mapk [] [[1; 2]] 0 = Ok NaN.
Proof. apply (mapk_empty_is_nan [] [[1; 2]] 0). by left. Defined.

Lemma mapk_unit_interval_witness :
  ∃ q, mapk [[1; 3]; [2]] [[1; 2; 3]; [2]; [5]] 2 = Ok (Finite q) ∧
       (0 ≤ q ≤ 1)%Qc.
Proof.
  apply (mapk_unit_interval [[1; 3]; [2]] [[1; 2; 3]; [2]; [5]] 2);
    [done|done|lia].
Defined.

(** ** [create_or_destroy_bboxes], continued *)

Lemma draws_from_range g n : Forall (λ v, 0 ≤ v < 1)%Qc (draws_from g n).
Proof.
  apply Forall_fmap, Forall_forall. intros i _. apply uniform_of_raw_range.
Qed.

Lemma draws_from_length g n : length (draws_from g n) = n.
Proof. unfold draws_from. by rewrite length_fmap, length_seq. Qed.

Lemma create_or_destroy_closed {A} (bboxes : list A) prob g :
  create_or_destroy_bboxes bboxes prob g =
  (retained bboxes prob (draws_from g (length bboxes)),
   Rng (rng_raw g) (rng_pos g + length bboxes)).
Proof. unfold create_or_destroy_bboxes. by rewrite create_or_destroy_fold. Qed.

Lemma retained_none {A} (bboxes : list A) prob draws :
  Forall (λ v, ¬ (prob < v)%Qc) draws → retained bboxes prob draws = [].
Proof.
  intros Hdraws. revert bboxes.
  induction Hdraws as [|v draws Hv _ IH]; intros [|b bboxes]; try done.
  unfold retained in *. cbn [zip_with].
  rewrite filter_cons_False by done. apply IH.
Qed.

Lemma retained_all {A} (bboxes : list A) prob draws :
  length draws = length bboxes →
  Forall (λ v, (prob < v)%Qc) draws → retained bboxes prob draws = bboxes.
Proof.
  intros Hlen Hdraws. revert bboxes Hlen.
  induction Hdraws as [|v draws Hv _ IH]; intros [|b bboxes] Hlen; try done.
  unfold retained in *. cbn [zip_with].
  rewrite filter_cons_True by done. rewrite fmap_cons. cbn [fst].
  f_equal. apply IH. simpl in Hlen. lia.
Qed.

(** With [prob >= 1] every box is dropped, whatever the generator
    returns: a draw is always below 1. *)
Theorem create_or_destroy_drops_all {A} (bboxes : list A) (prob : Qc)
    (g : rng) :
  (1 ≤ prob)%Qc → (create_or_destroy_bboxes bboxes prob g).1 = [].
Proof.
  intros Hprob. rewrite create_or_destroy_closed. cbn [fst].
  apply retained_none, Forall_forall. intros v Hin Hlt.
  pose proof (draws_from_range g (length bboxes)) as Hrange.
  rewrite Forall_forall in Hrange. destruct (Hrange v Hin) as [_ Hv].
  apply (Qclt_not_le _ _ Hlt). etrans; [|exact Hprob].
  by apply Qclt_le_weak.
Qed.

Lemma create_or_destroy_drops_all_witness :
  (create_or_destroy_bboxes [1; 2; 3] 1%Qc sample_rng).1 = [].
Proof.
  apply (create_or_destroy_drops_all [1; 2; 3] 1%Qc sample_rng).
  apply Qcle_refl.
Defined.

(** With a negative [prob] every box is kept, in order, whatever the
    generator returns: a draw is never negative. *)
Theorem create_or_destroy_keeps_all {A} (bboxes : list A) (prob : Qc)
    (g : rng) :
  (prob < 0)%Qc → (create_or_destroy_bboxes bboxes prob g).1 = bboxes.
Proof.
  intros Hprob. rewrite create_or_destroy_closed. cbn [fst].
  apply retained_all; [apply draws_from_length|].
  apply Forall_forall. intros v Hin.
  pose proof (draws_from_range g (length bboxes)) as Hrange.
  rewrite Forall_forall in Hrange. destruct (Hrange v Hin) as [Hv _].
  by eapply Qclt_le_trans.
Qed.

Lemma create_or_destroy_keeps_all_witness :
  (create_or_destroy_bboxes [1; 2; 3] (-1)%Qc sample_rng).1 = [1; 2; 3].
Proof.
  apply (create_or_destroy_keeps_all [1; 2; 3] (-1)%Qc sample_rng).
  by vm_compute.
Defined.

(** Sampling a concatenation is sampling its first part, then its second
    part with the generator the first call leaves behind. *)
Theorem create_or_destroy_app {A} (l1 l2 : list A) (prob : Qc) (g : rng) :
  create_or_destroy_bboxes (l1 ++ l2) prob g =
  let '(kept1, g1) := create_or_destroy_bboxes l1 prob g in
  let '(kept2, g2) := create_or_destroy_bboxes l2 prob g1 in
  (kept1 ++ kept2, g2).
Proof.
  unfold create_or_destroy_bboxes at 1. rewrite foldl_app.
  rewrite (create_or_destroy_closed l1), (create_or_destroy_closed l2).
  by rewrite !create_or_destroy_fold.
Qed.

(** ** [add_noise_to_bboxes], continued *)

Lemma move_pair_zero limit a b : move_pair limit 0 a b = (a, b).
Proof. unfold move_pair. rewrite !Z.add_0_r. by destruct (_ && _). Qed.

Lemma adjust_zero limit x : adjust limit 0 x = x.
Proof. unfold adjust. rewrite Z.add_0_r. by destruct (within _ _). Qed.

Lemma perturb_bbox_zero shape bbox :
  (4 ≤ length bbox)%nat → perturb_bbox shape (0, 0) (0, 0) bbox = Ok bbox.
Proof.
  destruct bbox as [|t [|l [|b [|r rest]]]]; simpl; try lia. intros _.
  rewrite perturb_bbox_closed. unfold perturb_spec. cbn [fst snd].
  by rewrite !move_pair_zero, !adjust_zero.
Qed.

Lemma add_noise_loop_zero shape bboxes (h : heap) :
  well_formed bboxes h →
  ∃ h' : heap, add_noise_loop shape (0, 0) (0, 0) bboxes h = Ok h' ∧
               ∀ r, h' r = h r.
Proof.
  unfold add_noise_loop, well_formed. revert h.
  induction bboxes as [|r0 bboxes IH]; intros h Hwf;
    [simpl|rewrite for_in_cons].
  { by exists h. }
  rewrite perturb_bbox_zero, !bind_Ok by (apply Hwf; by left).
  assert (∀ r, (<[r0:=h r0]> h) r = h r) as Hsame.
  { intros r. destruct (decide (r0 = r)) as [->|Hne].
    - by rewrite fn_lookup_insert.
    - by rewrite fn_lookup_insert_ne. }
  destruct (IH (<[r0:=h r0]> h)) as (h' & -> & Hh').
  { intros r Hr. rewrite Hsame. apply Hwf. by right. }
  exists h'. split; [done|]. intros r. by rewrite Hh', Hsame.
Qed.

(** With both noise flags off, a call on boxes that have their four
    coordinates draws nothing and leaves every box as it was. *)
Theorem add_noise_disabled_is_identity (bboxes : list loc) (shape : Z * Z)
    (noise_size_factor noise_position_factor : Z) (h : heap) (g : rng) :
  well_formed bboxes h →
  ∃ h' : heap,
    add_noise_to_bboxes bboxes shape false noise_size_factor
      false noise_position_factor h g = Ok (bboxes, h', g) ∧
    ∀ r, h' r = h r.
Proof.
  intros Hwf. unfold add_noise_to_bboxes. rewrite !bind_Ok.
  destruct (add_noise_loop_zero shape bboxes h Hwf) as (h' & -> & Hh').
  rewrite bind_Ok. by exists h'.
Qed.

Lemma add_noise_disabled_is_identity_witness :
  ∃ h' : heap,
    add_noise_to_bboxes [0; 1; 0]%nat (100, 100) false 5 false 5
      sample_heap sample_rng = Ok ([0; 1; 0]%nat, h', sample_rng) ∧
    ∀ r, h' r = sample_heap r.
Proof.
  apply (add_noise_disabled_is_identity [0; 1; 0]%nat (100, 100) 5 5
           sample_heap sample_rng).
  intros r _. simpl. lia.
Defined.

Lemma randint2_empty_range low high g :
  high ≤ low → randint2 low high g = Raise ValueError.
Proof.
  intros Hle. unfold randint2, randint.
  by rewrite bool_decide_eq_false_2 by lia.
Qed.

(** An enabled noise whose factor is not positive makes the call raise
    [ValueError], whatever the boxes are. *)
Theorem add_noise_bad_factor (bboxes : list loc) (shape : Z * Z)
    (noise_size : bool) (noise_size_factor : Z)
    (noise_position : bool) (noise_position_factor : Z)
    (h : heap) (g : rng) :
  (noise_position = true ∧ noise_size_factor ≤ 0) ∨
  ((noise_position = true → 0 < noise_size_factor) ∧
   noise_size = true ∧ noise_position_factor ≤ 0) →
  add_noise_to_bboxes bboxes shape noise_size noise_size_factor
    noise_position noise_position_factor h g = Raise ValueError.
Proof.
  unfold add_noise_to_bboxes. intros [[-> Hbad]|(Hok & -> & Hbad)].
  - by rewrite randint2_empty_range by lia.
  - rewrite (offset_of_call_Ok _ _ _ Hok).
    destruct (offset_of_call _ _ _) as [cp g1]. rewrite bind_Ok.
    by rewrite randint2_empty_range by lia.
Qed.

Lemma add_noise_bad_factor_witness :
  add_noise_to_bboxes [0%nat] (100, 100) true 0 true 5
    sample_heap sample_rng = Raise ValueError.
Proof.
  apply (add_noise_bad_factor [0%nat] (100, 100) true 0 true 5
           sample_heap sample_rng).
  left. split; [done|lia].
Defined.

Ltac split_ifs :=
  repeat match goal with
         | |- context [if ?c then _ else _] => destruct c; simpl
         end.

Lemma perturb_bbox_short shape cp cs bbox :
  (length bbox < 4)%nat → perturb_bbox shape cp cs bbox = Raise IndexError.
Proof.
  intros Hshort.
  destruct bbox as [|t [|l [|b [|r rest]]]]; [| | | |simpl in Hshort; lia];
    unfold perturb_bbox, move_axis, resize_at, por, below_zero, above_limit,
      shift;
    simpl; split_ifs; reflexivity.
Qed.

Lemma add_noise_loop_short shape cp cs bboxes (h : heap) r :
  r ∈ bboxes → (length (h r) < 4)%nat →
  add_noise_loop shape cp cs bboxes h = Raise IndexError.
Proof.
  unfold add_noise_loop. revert h.
  induction bboxes as [|r0 bboxes IH]; intros h Hr Hshort.
  { by apply elem_of_nil in Hr. }
  rewrite for_in_cons.
  destruct (decide (length (h r0) < 4)%nat) as [Hshort0|Hlong0].
  { by rewrite perturb_bbox_short. }
  destruct (perturb_bbox_coords shape cp cs (h r0)) as (b' & -> & _);
    [lia|].
  rewrite !bind_Ok.
  assert (r ≠ r0) as Hne by (intros ->; lia).
  apply IH.
  - apply elem_of_cons in Hr as [?|?]; done.
  - by rewrite fn_lookup_insert_ne.
Qed.

(** A listed box with fewer than four elements makes the call raise
    [IndexError], even when both noise flags are off. *)
Theorem add_noise_short_box (bboxes : list loc) (shape : Z * Z)
    (noise_size : bool) (noise_size_factor : Z)
    (noise_position : bool) (noise_position_factor : Z)
    (h : heap) (g : rng) (r : loc) :
  (noise_position = true → 0 < noise_size_factor) →
  (noise_size = true → 0 < noise_position_factor) →
  r ∈ bboxes → (length (h r) < 4)%nat →
  add_noise_to_bboxes bboxes shape noise_size noise_size_factor
    noise_position noise_position_factor h g = Raise IndexError.
Proof.
  intros Hnsf Hnpf Hr Hshort. unfold add_noise_to_bboxes.
  rewrite (offset_of_call_Ok _ _ _ Hnsf).
  destruct (offset_of_call _ _ g) as [cp g1]. rewrite bind_Ok.
  rewrite (offset_of_call_Ok _ _ _ Hnpf).
  destruct (offset_of_call _ _ g1) as [cs g2]. rewrite bind_Ok.
  by rewrite (add_noise_loop_short shape cp cs bboxes h r).
Qed.

Lemma add_noise_short_box_witness :
  add_noise_to_bboxes [0; 1]%nat (100, 100) false 5 false 5
    (λ r, if decide (r = 1%nat) then [10; 10; 20] else [10; 10; 20; 20])
    sample_rng = Raise IndexError.
Proof.
  apply (add_noise_short_box [0; 1]%nat (100, 100) false 5 false 5
           (λ r, if decide (r = 1%nat) then [10; 10; 20] else [10; 10; 20; 20])
           sample_rng 1%nat); [done|done| |simpl; lia].
  right. by left.
Defined.

Lemma add_noise_loop_frame shape cp cs bboxes (h h' : heap) r :
  add_noise_loop shape cp cs bboxes h = Ok h' → r ∉ bboxes → h' r = h r.
Proof.
  unfold add_noise_loop. revert h.
  induction bboxes as [|r0 bboxes IH]; intros h Hloop Hr.
  { simpl in Hloop. by injection Hloop as <-. }
  apply not_elem_of_cons in Hr as [Hne Hr].
  rewrite for_in_cons in Hloop.
  destruct (perturb_bbox shape cp cs (h r0)) as [b'|]; [|done].
  rewrite !bind_Ok in Hloop.
  rewrite (IH _ Hloop Hr). by rewrite fn_lookup_insert_ne.
Qed.

(** A call that returns has not touched any box object outside
    [bboxes], and returns the list it was given. *)
Theorem add_noise_frame (bboxes : list loc) (shape : Z * Z)
    (noise_size : bool) (noise_size_factor : Z)
    (noise_position : bool) (noise_position_factor : Z)
    (h : heap) (g : rng) bs (h' : heap) g' (r : loc) :
  add_noise_to_bboxes bboxes shape noise_size noise_size_factor
    noise_position noise_position_factor h g = Ok (bs, h', g') →
  r ∉ bboxes → bs = bboxes ∧ h' r = h r.
Proof.
  intros Hcall Hr.
  apply add_noise_to_bboxes_Ok in Hcall as (-> & cp & cs & Hloop).
  split; [done|]. by eapply add_noise_loop_frame.
Qed.

Lemma add_noise_frame_witness :
  ∃ (h' : heap) g',
    add_noise_to_bboxes [0; 1]%nat (100, 100) true 5 true 5
      sample_heap sample_rng = Ok ([0; 1]%nat, h', g') ∧
    h' 7%nat = sample_heap 7%nat.
Proof.
  eexists _, _. split; [reflexivity|].
  eapply (add_noise_frame [0; 1]%nat (100, 100) true 5 true 5
            sample_heap sample_rng _ _ _ 7%nat); [reflexivity|].
  intros Hin. apply list_elem_of_In in Hin. simpl in Hin. lia.
Defined.

(** A box for which every intermediate coordinate stays inside the image
    is translated by the sum of the two offsets: also the "size" offset
    moves both endpoints of an axis the same way. *)
Theorem perturb_bbox_translates (H W dy dx sy sx : Z)
    (top left bottom right : Z) (rest : list Z) :
  0 ≤ top + dy ≤ H → 0 ≤ bottom + dy ≤ H →
  0 ≤ left + dx ≤ W → 0 ≤ right + dx ≤ W →
  0 ≤ top + dy + sy ≤ H → 0 ≤ bottom + dy + sy ≤ H →
  0 ≤ left + dx + sx ≤ W → 0 ≤ right + dx + sx ≤ W →
  perturb_bbox (H, W) (dy, dx) (sy, sx)
    (top :: left :: bottom :: right :: rest) =
  Ok (top + dy + sy :: left + dx + sx :: bottom + dy + sy
      :: right + dx + sx :: rest).
Proof.
  intros Ht Hb Hl Hr Ht' Hb' Hl' Hr'.
  rewrite perturb_bbox_closed. unfold perturb_spec, move_pair, adjust.
  cbn [fst snd].
  rewrite (proj2 (within_spec H (top + dy)) Ht),
    (proj2 (within_spec H (bottom + dy)) Hb),
    (proj2 (within_spec W (left + dx)) Hl),
    (proj2 (within_spec W (right + dx)) Hr).
  cbn [andb].
  by rewrite (proj2 (within_spec H (top + dy + sy)) Ht'),
    (proj2 (within_spec H (bottom + dy + sy)) Hb'),
    (proj2 (within_spec W (left + dx + sx)) Hl'),
    (proj2 (within_spec W (right + dx + sx)) Hr').
Qed.

Lemma perturb_bbox_translates_witness :
  perturb_bbox (100, 100) (2, -1) (-3, 4) [3; 1; 7; 9] =
  Ok [3 + 2 + -3; 1 + -1 + 4; 7 + 2 + -3; 9 + -1 + 4].
Proof.
  apply (perturb_bbox_translates 100 100 2 (-1) (-3) 4 3 1 7 9 []); lia.
Defined.

(** Position noise alone never changes the height or the width of a
    box. *)
Theorem position_noise_keeps_size (shape cp : Z * Z)
    (top left bottom right : Z) (rest : list Z) :
  ∃ top' left' bottom' right',
    perturb_bbox shape cp (0, 0) (top :: left :: bottom :: right :: rest)
      = Ok (top' :: left' :: bottom' :: right' :: rest) ∧
    bottom' - top' = bottom - top ∧ right' - left' = right - left.
Proof.
  rewrite perturb_bbox_closed. unfold perturb_spec, move_pair.
  destruct (within shape.1 (top + cp.1) && within shape.1 (bottom + cp.1));
    destruct (within shape.2 (left + cp.2) && within shape.2 (right + cp.2));
    cbn [fst snd]; rewrite !adjust_zero;
    do 4 eexists; (split; [reflexivity|lia]).
Qed.


